(** * resp3: the client-side RESP3 command writer (writer.go)

    A shallow embedding of [Writer.SendCommands], [Writer.writeString],
    [Writer.WriteCommand] and [Writer.WriteByteCommand], together with the
    parts of Go's runtime library they call: [strconv.Itoa],
    [strconv.FormatInt], [strconv.FormatBool], [strconv.FormatFloat],
    [fmt.Errorf] and [bufio.Writer].

    Go strings are byte sequences: a [string] of 8-bit characters here, with
    [len] the number of bytes.  A [[]byte] is a [list byte].  Integers are
    [Z]; the code performs no arithmetic on them, so no wrap-around occurs. *)

From Stdlib Require Import ZArith List Bool Lia.
From Stdlib.Strings Require Import String Ascii Byte.
From Stdlib Require Import Floats.
Import ListNotations.

Local Open Scope string_scope.
Local Open Scope list_scope.
Local Open Scope Z_scope.

Set Implicit Arguments.

(** ** Bytes and strings *)

Abbreviation bytes := (list byte).

(** [[]byte(s)]: the bytes of a Go string. *)
Definition bytes_of (s : string) : bytes := list_byte_of_string s.

(** [string(b)]: the conversion of line 43. *)
Definition string_of (b : bytes) : string := string_of_list_byte b.

(** [len(s)] for a string and [len(b)] for a byte slice, as Go's [int]. *)
Definition len (s : string) : Z := Z.of_nat (String.length s).
Definition len_bytes (b : bytes) : Z := Z.of_nat (List.length b).

Definition CR : ascii := ascii_of_nat 13.
Definition LF : ascii := ascii_of_nat 10.

(** ** Constants of the package declared outside writer.go *)

(** Modelled from the spec: the declaration of [TypeArray] is not in
    writer.go; the wire format of the specification (section 6) shows the
    array marker as the single byte [*]. *)
Definition TypeArray : byte := byte_of_ascii "*"%char.

(** Modelled from the spec: the declaration of [TypeBlobString] is not in
    writer.go; the wire format of the specification (section 6) shows the
    blob-string marker as the single byte [$]. *)
Definition TypeBlobString : byte := byte_of_ascii "$"%char.

(** Modelled from the spec: the declaration of [CRLFByte] is not in
    writer.go; the specification fixes the terminator as the two bytes
    carriage-return, line-feed. *)
Definition CRLFByte : bytes := [byte_of_ascii CR; byte_of_ascii LF].

Definition CRLF : string := String CR (String LF EmptyString).

(** ** strconv: integers and booleans *)

Module strconv.

Definition digit_char (d : Z) : ascii := ascii_of_nat (48 + Z.to_nat d).

(** The decimal digits of [u], most significant first, pushed in front of
    [acc]; [fuel] bounds the number of digits. *)
Fixpoint formatBits (fuel : nat) (u : Z) (acc : string) : string :=
  match fuel with
  | O => acc
  | S fuel' =>
      let acc' := String (digit_char (u mod 10)) acc in
      if u <? 10 then acc' else formatBits fuel' (u / 10) acc'
  end.

(** A non-negative [u] has at most [log2 u + 1] decimal digits. *)
Definition FormatUint (u : Z) : string :=
  formatBits (S (Z.to_nat (Z.log2 u))) u "".

(** [strconv.FormatInt(i, 10)]. *)
Definition FormatInt (i : Z) : string :=
  if i <? 0 then String "-" (FormatUint (- i)) else FormatUint i.

(** [strconv.Itoa(i)] is [FormatInt(int64(i), 10)]. *)
Definition Itoa (i : Z) : string := FormatInt i.

(** [strconv.FormatBool]. *)
Definition FormatBool (b : bool) : string := if b then "true" else "false".

(** Reading decimal digits back, for the statements below. *)
Definition is_digit (c : ascii) : bool :=
  let n := nat_of_ascii c in (48 <=? n)%nat && (n <=? 57)%nat.

Definition digit_val (c : ascii) : Z := Z.of_nat (nat_of_ascii c) - 48.

Fixpoint parse_digits (s : string) (acc : Z) : option Z :=
  match s with
  | EmptyString => Some acc
  | String c s' =>
      if is_digit c then parse_digits s' (10 * acc + digit_val c) else None
  end.

Definition ParseUint (s : string) : option Z :=
  match s with
  | EmptyString => None
  | _ => parse_digits s 0
  end.

Definition ParseInt (s : string) : option Z :=
  match s with
  | String "-" s' => option_map Z.opp (ParseUint s')
  | _ => ParseUint s
  end.

Fixpoint all_digits (s : string) : bool :=
  match s with
  | EmptyString => true
  | String c s' => is_digit c && all_digits s'
  end.

(** Canonical base-10 text: an optional leading [-], then one or more
    digits and nothing else; the first digit is [0] only in the text
    [0] itself. *)
Definition canonical_positive (s : string) : bool :=
  match s with
  | EmptyString => false
  | String c s' => is_digit c && negb (Ascii.eqb c "0") && all_digits s'
  end.

Definition canonical_decimal (s : string) : bool :=
  match s with
  | String "0" EmptyString => true
  | String "-" s' => canonical_positive s'
  | _ => canonical_positive s
  end.

(** *** Floating point: [FormatFloat(f, 'g', -1, 64)]

    The routine is part of Go's runtime library, not of the repository.
    It is modelled by its documented contract: the digits are the
    shortest decimal that lies in the rounding interval of the binary64
    value (the nearest such decimal when two of that length qualify),
    laid out by the [%e] or [%f] rule of the ['g'] format. *)

(** [cand * 10^q] compared with [b * 2^s], all integers. *)
Definition cmp_scaled (cand q b s : Z) : comparison :=
  (cand * 10 ^ Z.max q 0 * 2 ^ Z.max (- s) 0
     ?= b * 10 ^ Z.max (- q) 0 * 2 ^ Z.max s 0).

(** [floor (m * 2^e / 10^q)]. *)
Definition floor_scaled (m e q : Z) : Z :=
  (m * 2 ^ Z.max e 0 * 10 ^ Z.max (- q) 0)
    / (2 ^ Z.max (- e) 0 * 10 ^ Z.max q 0).

(** The decimal exponent of the leading digit of [m * 2^e]. *)
Definition leading_exponent (m e : Z) : Z :=
  let est := (Z.log2 m + e) * 30103 / 100000 in
  let up q := if 10 <=? floor_scaled m e q then q + 1 else q in
  let down q := if floor_scaled m e q =? 0 then q - 1 else q in
  down (down (up (up est))).

(** Walks [q] downwards from the leading digit's exponent until the value
    cut at [10^q], or that plus one unit, falls inside the interval
    [(lo, hi) * 2^s]; returns the retained integer and [q]. *)
Fixpoint shortest_from (fuel : nat) (m e lo hi : Z) (inclusive : bool)
    (q : Z) : Z * Z :=
  let s := e - 2 in
  let d := floor_scaled m e q in
  let inside_lo c :=
    match cmp_scaled c q lo s with
    | Gt => true | Eq => inclusive | Lt => false
    end in
  let inside_hi c :=
    match cmp_scaled c q hi s with
    | Lt => true | Eq => inclusive | Gt => false
    end in
  let okdown := inside_lo d in
  let okup := inside_hi (d + 1) in
  let nearest :=
    match cmp_scaled (2 * d + 1) q (8 * m) s with
    | Gt => d | Lt => d + 1 | Eq => if Z.even d then d else d + 1
    end in
  if okdown && okup then (nearest, q)
  else if okdown then (d, q)
  else if okup then (d + 1, q)
  else match fuel with
       | O => (d, q)
       | S fuel' => shortest_from fuel' m e lo hi inclusive (q - 1)
       end.

(** [m * 2^e] is the binary64 value, [m < 2^53] and [e >= -1074]. *)
Definition roundShortest (m e : Z) : Z * Z :=
  let lo := if (m =? 2 ^ 52) && (-1074 <? e) then 4 * m - 1 else 4 * m - 2 in
  shortest_from 1200 m e lo (4 * m + 2) (Z.even m) (leading_exponent m e).

Fixpoint rtrim0 (s : string) : string :=
  match s with
  | EmptyString => EmptyString
  | String c s' =>
      match rtrim0 s' with
      | EmptyString => if Ascii.eqb c "0" then EmptyString else String c EmptyString
      | t => String c t
      end
  end.

Fixpoint zeros (n : nat) : string :=
  match n with O => EmptyString | S n' => String "0" (zeros n') end.

(** [%e] with every digit of [d] shown: [d.ddddde+XX]. *)
Definition fmtE (d : string) (dp : Z) : string :=
  let mant :=
    match d with
    | EmptyString => "0"
    | String c EmptyString => String c EmptyString
    | String c rest => String c (String "." rest)
    end in
  let exp := match d with EmptyString => 0 | _ => dp - 1 end in
  let sign := if exp <? 0 then "-" else "+" in
  let a := Z.abs exp in
  let pad := if a <? 10 then "0" else "" in
  (mant ++ "e" ++ sign ++ pad ++ FormatUint a)%string.

(** [%f] with [max (nd - dp) 0] fraction digits. *)
Definition fmtF (d : string) (dp : Z) : string :=
  let nd := Z.of_nat (String.length d) in
  let int_part :=
    if 0 <? dp
    then (substring 0 (Z.to_nat (Z.min nd dp)) d
            ++ zeros (Z.to_nat (dp - Z.min nd dp)))%string
    else "0" in
  let frac :=
    if dp <? nd
    then ("." ++ zeros (Z.to_nat (- dp))
            ++ substring (Z.to_nat dp) (Z.to_nat (nd - Z.max dp 0)) d)%string
    else "" in
  (int_part ++ frac)%string.

(** The ['g'] layout with the shortest digits: [%e] when the exponent is
    below [-4] or at least [6] (the precision used for that decision
    when the digits are the shortest ones). *)
Definition formatDigits_g (d : string) (dp : Z) : string :=
  let exp := dp - 1 in
  if (exp <? -4) || (6 <=? exp) then fmtE d dp else fmtF d dp.

Definition FormatFloat_g64 (f : float) : string :=
  match Prim2SF f with
  | S754_nan => "NaN"
  | S754_infinity false => "+Inf"
  | S754_infinity true => "-Inf"
  | S754_zero neg => ((if neg then "-" else "") ++ "0")%string
  | S754_finite neg m e =>
      let '(digs, q) := roundShortest (Zpos m) e in
      let all := FormatUint digs in
      let dp := Z.of_nat (String.length all) + q in
      ((if neg then "-" else "") ++ formatDigits_g (rtrim0 all) dp)%string
  end.

(** *** Reading a decimal back: [ParseFloat(s, bitSize)]

    Modelled by its documented contract as well: the nearest number of
    [bitSize] bits, by IEEE 754 round-to-nearest-even; the texts read are
    those ['g'] writes (sign, digits, point, exponent, [Inf], [NaN]). *)

(** The number [m * 2^e] of at most [prec] bits and [e >= emin] nearest to
    [d * 10^q], for [d > 0]; ties go to the even [m]. *)
Definition round_nearest (prec emin d q : Z) : Z * Z :=
  let n0 := d * 10 ^ Z.max q 0 in
  let d0 := 10 ^ Z.max (- q) 0 in
  let l0 := Z.log2 n0 - Z.log2 d0 in
  let l := if n0 * 2 ^ Z.max (- l0) 0 <? d0 * 2 ^ Z.max l0 0
           then l0 - 1 else l0 in
  let e := Z.max (l - (prec - 1)) emin in
  let num := n0 * 2 ^ Z.max (- e) 0 in
  let den := d0 * 2 ^ Z.max e 0 in
  let m := num / den in
  let m' := match 2 * (num mod den) ?= den with
            | Lt => m
            | Gt => m + 1
            | Eq => if Z.even m then m else m + 1
            end in
  (m', e).

(** Leading digits of [s]: their value on top of [acc], their number, and
    the rest of [s]. *)
Fixpoint read_digits (s : string) (acc count : Z) : Z * Z * string :=
  match s with
  | String c s' =>
      if is_digit c
      then read_digits s' (10 * acc + digit_val c) (count + 1)
      else (acc, count, s)
  | EmptyString => (acc, count, s)
  end.

(** The exponent part: empty, or [e], a sign and digits up to the end. *)
Definition read_exponent (s : string) : option Z :=
  match s with
  | EmptyString => Some 0
  | String "e" s' | String "E" s' =>
      let '(neg, s'') :=
        match s' with
        | String "-" r => (true, r)
        | String "+" r => (false, r)
        | _ => (false, s')
        end in
      match read_digits s'' 0 0 with
      | (x, n, EmptyString) =>
          if n =? 0 then None else Some (if neg then - x else x)
      | _ => None
      end
  | _ => None
  end.

Definition ParseFloat (s : string) (bitSize : Z) : option float :=
  let '(prec, emin, emax) :=
    if bitSize =? 32 then (24, -149, 128) else (53, -1074, 1024) in
  let '(neg, s1) :=
    match s with
    | String "-" r => (true, r)
    | String "+" r => (false, r)
    | _ => (false, s)
    end in
  let signed (f : float) : float := if neg then PrimFloat.opp f else f in
  if String.eqb s1 "Inf" then Some (signed infinity)
  else if String.eqb s "NaN" then Some nan
  else
    let '(ip, ni, s2) := read_digits s1 0 0 in
    let '(d, nf, s3) :=
      match s2 with
      | String "." r => read_digits r ip 0
      | _ => (ip, 0, s2)
      end in
    if ni + nf =? 0 then None
    else
      match read_exponent s3 with
      | None => None
      | Some x =>
          if d =? 0 then Some (signed zero)
          else
            let '(m, e) := round_nearest prec emin d (x - nf) in
            if m =? 0 then Some (signed zero)
            else if emax <=? Z.log2 m + e then Some (signed infinity)
            else Some (signed (SF2Prim (S754_finite false (Z.to_pos m) e)))
      end.

End strconv.

(** ** Errors and the values of [interface{}] *)

(** A Go [error] as built by [errors.New] and [fmt.Errorf]: its message. *)
Inductive error : Type := errorString (msg : string).

Definition Error (e : error) : string := let 'errorString m := e in m.

(** [io.ErrShortWrite]. *)
Definition ErrShortWrite : error := errorString "short write".

(** A binary32 value is held as the binary64 number equal to it: the
    conversion [float64(v)] of line 47 is exact. *)
Definition float32 := float.
Definition float64 := float.
Definition float64_of_float32 (v : float32) : float64 := v.

(** Dynamic types that none of the seven cases of the type switch matches:
    the other integer widths, the unsigned integers, the nil interface, a
    slice of strings and an error value. *)
Inductive other : Type :=
| OInt8 (v : Z)
| OInt16 (v : Z)
| OInt32 (v : Z)
| OUint (v : Z)
| OUint8 (v : Z)
| OUint16 (v : Z)
| OUint32 (v : Z)
| OUint64 (v : Z)
| ONil
| OStrings (l : list string)
| OError (e : error).

(** An argument of [SendCommands]: a value of [interface{}] with its
    dynamic type. *)
Inductive value : Type :=
| VString (v : string)
| VInt64 (v : Z)
| VInt (v : Z)
| VBytes (v : bytes)
| VBool (v : bool)
| VFloat32 (v : float32)
| VFloat64 (v : float64)
| VOther (o : other).

(** The dynamic type of an argument. *)
Inductive gotype : Type :=
| Tstring | Tint64 | Tint | Tbytes | Tbool | Tfloat32 | Tfloat64
| Tint8 | Tint16 | Tint32 | Tuint | Tuint8 | Tuint16 | Tuint32 | Tuint64
| Tnil | Tstrings | Terror.

Definition type_of_other (o : other) : gotype :=
  match o with
  | OInt8 _ => Tint8 | OInt16 _ => Tint16 | OInt32 _ => Tint32
  | OUint _ => Tuint | OUint8 _ => Tuint8 | OUint16 _ => Tuint16
  | OUint32 _ => Tuint32 | OUint64 _ => Tuint64
  | ONil => Tnil | OStrings _ => Tstrings | OError _ => Terror
  end.

Definition TypeOf (a : value) : gotype :=
  match a with
  | VString _ => Tstring | VInt64 _ => Tint64 | VInt _ => Tint
  | VBytes _ => Tbytes | VBool _ => Tbool
  | VFloat32 _ => Tfloat32 | VFloat64 _ => Tfloat64
  | VOther o => type_of_other o
  end.

(** The value ranges of the integer types ([int] is 64 bits wide). *)
Definition in_range (a : value) : bool :=
  let signed w v := (- 2 ^ (w - 1) <=? v) && (v <? 2 ^ (w - 1)) in
  let unsigned w v := (0 <=? v) && (v <? 2 ^ w) in
  match a with
  | VInt64 v | VInt v => signed 64 v
  | VOther (OInt8 v) => signed 8 v
  | VOther (OInt16 v) => signed 16 v
  | VOther (OInt32 v) => signed 32 v
  | VOther (OUint v) | VOther (OUint64 v) => unsigned 64 v
  | VOther (OUint8 v) => unsigned 8 v
  | VOther (OUint16 v) => unsigned 16 v
  | VOther (OUint32 v) => unsigned 32 v
  | _ => true
  end.

Module fmt.

Fixpoint join (l : list string) : string :=
  match l with
  | [] => ""
  | [x] => x
  | x :: rest => (x ++ " " ++ join rest)%string
  end.

(** The verb [%v] on the values that reach the [default] case. *)
Definition Sprint_v (o : other) : string :=
  match o with
  | OInt8 v | OInt16 v | OInt32 v => strconv.FormatInt v
  | OUint v | OUint8 v | OUint16 v | OUint32 v | OUint64 v =>
      strconv.FormatInt v
  | ONil => "<nil>"
  | OStrings l => ("[" ++ join l ++ "]")%string
  | OError e => Error e
  end.

(** [fmt.Errorf(prefix + "%v", a)]. *)
Definition Errorf (prefix : string) (a : other) : error :=
  errorString (prefix ++ Sprint_v a)%string.

End fmt.

(** ** io.Writer *)

Module io.

(** What [Write(p)] returns.  The contract of [io.Writer] (a non-nil
    error whenever fewer than [len(p)] bytes were taken) is part of the
    type: either all of [p] was written, or [n] bytes and an error. *)
Inductive result : Type :=
| ok
| failed (n : nat) (e : error).

(** A sink has [Write]; it may be an [io.StringWriter] as well, and then
    [WriteString] is [Some] of that method. *)
Class Writer (S : Type) : Type := {
  Write : S -> bytes -> S * result;
  WriteString : option (S -> string -> S * result)
}.

End io.

(** [bytes.Buffer] as a sink: it appends and never fails. *)
#[export] Instance bytes_Buffer : io.Writer bytes :=
  {| io.Write := fun s p => (s ++ p, io.ok);
     io.WriteString := Some (fun s str => (s ++ bytes_of str, io.ok)) |}.

(** A sink with room for [room] more bytes, which fails once it is full
    (a closed pipe, a full disk).  It has [Write] only. *)
Record limited : Type := { taken : bytes; room : nat }.

Definition errClosed : error := errorString "write: broken pipe".

#[export] Instance limited_Writer : io.Writer limited :=
  {| io.Write := fun s p =>
       if (List.length p <=? room s)%nat
       then ({| taken := taken s ++ p; room := room s - List.length p |}, io.ok)
       else ({| taken := taken s ++ firstn (room s) p; room := 0 |},
             io.failed (room s) errClosed);
     io.WriteString := None |}.

(** ** bufio.Writer *)

Module bufio.

Section WithSink.

Context {S : Type} `{io.Writer S}.

(** [buf] is the slice [b.buf[0:b.n]] of bytes waiting to be flushed,
    [size] is [len(b.buf)], [wr] the underlying sink. *)
Record Writer : Type := mkWriter {
  err : option error;
  buf : bytes;
  size : nat;
  wr : S
}.

Definition defaultBufSize : nat := 4096.

Definition NewWriter (w : S) : Writer :=
  {| err := None; buf := []; size := defaultBufSize; wr := w |}.

Definition Available (b : Writer) : nat := size b - List.length (buf b).

Definition Buffered (b : Writer) : nat := List.length (buf b).

(** [copy(b.buf[b.n:], p)] followed by [b.n += n]. *)
Definition fill (p : bytes) (b : Writer) : nat * Writer :=
  let n := Nat.min (Available b) (List.length p) in
  (n, {| err := err b; buf := buf b ++ firstn n p; size := size b;
         wr := wr b |}).

Definition Flush (b : Writer) : option error * Writer :=
  match err b with
  | Some e => (Some e, b)
  | None =>
      match buf b with
      | [] => (None, b)
      | _ =>
          let '(w, r) := io.Write (wr b) (buf b) in
          match r with
          | io.failed n e =>
              (Some e, {| err := Some e; buf := skipn n (buf b);
                          size := size b; wr := w |})
          | io.ok =>
              (None, {| err := None; buf := []; size := size b;
                        wr := w |})
          end
      end
  end.

Definition WriteByte (c : byte) (b : Writer) : option error * Writer :=
  match err b with
  | Some e => (Some e, b)
  | None =>
      let put b' :=
        {| err := err b'; buf := buf b' ++ [c]; size := size b';
           wr := wr b' |} in
      if (Available b <=? 0)%nat
      then let '(r, b') := Flush b in
           match r with
           | Some _ => (err b', b')
           | None => (None, put b')
           end
      else (None, put b)
  end.

(** The loop of [Write]: while [p] does not fit and no error is
    pending, either hand [p] to the sink (empty buffer) or fill the
    buffer and flush it. *)
Fixpoint Write_loop (fuel : nat) (p : bytes) (nn : nat) (b : Writer)
    : bytes * nat * Writer :=
  match fuel with
  | O => (p, nn, b)
  | Datatypes.S fuel' =>
      match err b with
      | Some _ => (p, nn, b)
      | None =>
          if (List.length p <=? Available b)%nat then (p, nn, b)
          else if (Buffered b =? 0)%nat
          then let '(w, r) := io.Write (wr b) p in
               match r with
               | io.ok =>
                   Write_loop fuel' [] (nn + List.length p)
                     {| err := None; buf := buf b; size := size b;
                        wr := w |}
               | io.failed n e =>
                   Write_loop fuel' (skipn n p) (nn + n)
                     {| err := Some e; buf := buf b; size := size b;
                        wr := w |}
               end
          else let '(n, b1) := fill p b in
               Write_loop fuel' (skipn n p) (nn + n) (snd (Flush b1))
      end
  end.

(** Three rounds are enough: a round that fills and flushes leaves the
    buffer empty or an error pending, a round that hands [p] to the
    sink leaves [p] empty or an error pending ([Write_loop_exit]). *)
Definition Write (p : bytes) (b : Writer)
    : (nat * option error) * Writer :=
  let '(p', nn, b') := Write_loop 3 p 0 b in
  match err b' with
  | Some e => ((nn, Some e), b')
  | None => let '(n, b'') := fill p' b' in ((nn + n, None)%nat, b'')
  end.

(** The sink's [WriteString] when the buffer is empty and the sink is an
    [io.StringWriter]: the case in which the text is forwarded. *)
Definition forward (b : Writer) : option (S -> string -> S * io.result) :=
  if (Buffered b =? 0)%nat then io.WriteString else None.

(** The loop of [WriteString]: while [s] does not fit and no error is
    pending, either forward [s] to the sink (empty buffer, and the sink is
    an [io.StringWriter]) or fill the buffer and flush it. *)
Fixpoint WriteString_loop (fuel : nat) (s : bytes) (nn : nat)
    (b : Writer) : bytes * nat * Writer :=
  match fuel with
  | O => (s, nn, b)
  | Datatypes.S fuel' =>
      match err b with
      | Some _ => (s, nn, b)
      | None =>
          if (List.length s <=? Available b)%nat then (s, nn, b)
          else
            match forward b with
            | Some sw =>
                let '(w, r) := sw (wr b) (string_of s) in
                match r with
                | io.ok =>
                    WriteString_loop fuel' [] (nn + List.length s)
                      {| err := None; buf := buf b; size := size b;
                         wr := w |}
                | io.failed n e =>
                    WriteString_loop fuel' (skipn n s) (nn + n)
                      {| err := Some e; buf := buf b; size := size b;
                         wr := w |}
                end
            | None =>
                let '(n, b1) := fill s b in
                WriteString_loop fuel' (skipn n s) (nn + n)
                  (snd (Flush b1))
            end
      end
  end.

(** A round that forwards [s] ends the loop; of the others, every one but
    the first consumes at least one byte of [s]: [len(s) + 2] rounds are
    enough ([WriteString_loop_exit]). *)
Definition WriteString (s : string) (b : Writer)
    : (nat * option error) * Writer :=
  let p := bytes_of s in
  let '(p', nn, b') :=
    WriteString_loop (2 + List.length p) p 0 b in
  match err b' with
  | Some e => ((nn, Some e), b')
  | None => let '(n, b'') := fill p' b' in ((nn + n, None)%nat, b'')
  end.

End WithSink.

Arguments Writer S : clear implicits.

End bufio.

(** ** The writer of the package *)

Section Resp3.

Context {S : Type} `{io.Writer S}.

(** [Writer] embeds a [*bufio.Writer], whose methods it inherits. *)
Definition Writer : Type := bufio.Writer S.

Definition NewWriter (writer : S) : Writer := bufio.NewWriter writer.

(** Methods mutate the writer: a computation takes the writer and returns
    its result with the writer after it. *)
Definition M (A : Type) : Type := Writer -> A * Writer.

Definition ret {A} (a : A) : M A := fun w => (a, w).

Definition bind {A B} (c : M A) (k : A -> M B) : M B :=
  fun w => let '(a, w') := c w in k a w'.

(** A call whose results are discarded, as every write of the file is. *)
Definition call {A} (c : M A) : M unit := fun w => (tt, snd (c w)).

End Resp3.

Notation "c1 ;; c2" := (bind (call c1) (fun _ => c2))
  (at level 61, right associativity).

Section Resp3Methods.

Context {S : Type} `{io.Writer S}.

Definition writeString (str : string) : M unit :=
  bufio.WriteByte TypeBlobString ;;
  bufio.WriteString (strconv.Itoa (len str)) ;;
  bufio.Write CRLFByte ;;
  bufio.WriteString str ;;
  call (bufio.Write CRLFByte).

(** The [range] loop of [SendCommands] and the final [Flush]. *)
Fixpoint SendCommands_range (args : list value) : M (option error) :=
  match args with
  | [] => bufio.Flush
  | arg :: rest =>
      match arg with
      | VString v => writeString v ;; SendCommands_range rest
      | VInt64 v => writeString (strconv.FormatInt v) ;; SendCommands_range rest
      | VInt v => writeString (strconv.FormatInt v) ;; SendCommands_range rest
      | VBytes v => writeString (string_of v) ;; SendCommands_range rest
      | VBool v => writeString (strconv.FormatBool v) ;; SendCommands_range rest
      | VFloat32 v =>
          writeString (strconv.FormatFloat_g64 (float64_of_float32 v)) ;;
          SendCommands_range rest
      | VFloat64 v =>
          writeString (strconv.FormatFloat_g64 v) ;; SendCommands_range rest
      | VOther o => ret (Some (fmt.Errorf "unsupported data type: " o))
      end
  end.

Definition SendCommands (args : list value) : M (option error) :=
  bufio.WriteByte TypeArray ;;
  bufio.WriteString (strconv.Itoa (Z.of_nat (List.length args))) ;;
  bufio.Write CRLFByte ;;
  SendCommands_range args.

Fixpoint WriteCommand_range (args : list string) : M (option error) :=
  match args with
  | [] => bufio.Flush
  | arg :: rest =>
      bufio.WriteByte TypeBlobString ;;
      bufio.WriteString (strconv.Itoa (len arg)) ;;
      bufio.Write CRLFByte ;;
      bufio.WriteString arg ;;
      bufio.Write CRLFByte ;;
      WriteCommand_range rest
  end.

Definition WriteCommand (args : list string) : M (option error) :=
  bufio.WriteByte TypeArray ;;
  bufio.WriteString (strconv.Itoa (Z.of_nat (List.length args))) ;;
  bufio.Write CRLFByte ;;
  WriteCommand_range args.

Fixpoint WriteByteCommand_range (args : list bytes) : M (option error) :=
  match args with
  | [] => bufio.Flush
  | arg :: rest =>
      bufio.WriteByte TypeBlobString ;;
      bufio.WriteString (strconv.Itoa (len_bytes arg)) ;;
      bufio.Write CRLFByte ;;
      bufio.Write arg ;;
      bufio.Write CRLFByte ;;
      WriteByteCommand_range rest
  end.

Definition WriteByteCommand (args : list bytes) : M (option error) :=
  bufio.WriteByte TypeArray ;;
  bufio.WriteString (strconv.Itoa (Z.of_nat (List.length args))) ;;
  bufio.Write CRLFByte ;;
  WriteByteCommand_range args.

End Resp3Methods.

(** * Vocabulary of the statements *)

(** ** The buffered writer over an in-memory sink

    The sink is a [bytes.Buffer]: what has reached it is [bufio.wr w]. *)

(** Everything written so far: delivered bytes, then buffered ones. *)
Definition stream (w : bufio.Writer bytes) : bytes := bufio.wr w ++ bufio.buf w.

(** No error is pending and the buffer is within its (positive) size,
    as for every writer made by [NewWriter]. *)
Definition healthy (w : bufio.Writer bytes) : Prop :=
  bufio.err w = None
  /\ (List.length (bufio.buf w) <= bufio.size w)%nat
  /\ (0 < bufio.size w)%nat.

(** [fits w out]: [out] goes into the free space of the buffer. *)
Definition fits (w : bufio.Writer bytes) (out : bytes) : Prop :=
  (List.length (bufio.buf w) + List.length out <= bufio.size w)%nat.

(** [c] appends [out] to the stream and leaves the writer healthy; the
    sink is not touched when [out] fits the buffer. *)
Definition writes {A} (c : M A) (out : bytes) : Prop :=
  forall w, healthy w ->
    let w' := snd (c w) in
    healthy w'
    /\ bufio.size w' = bufio.size w
    /\ stream w' = stream w ++ out
    /\ (fits w out -> bufio.wr w' = bufio.wr w).

(** The state in which a loop of [Write] or [WriteString] ends. *)
Definition loop_exit (p : bytes) (w : bufio.Writer bytes) (r : bytes * nat * bufio.Writer bytes) : Prop :=
  let '(p', _, w') := r in
  healthy w'
  /\ bufio.size w' = bufio.size w
  /\ stream w' ++ p' = stream w ++ p
  /\ (List.length p' <= bufio.Available w')%nat
  /\ ((List.length p <= bufio.Available w)%nat -> w' = w /\ p' = p).

(** ** The bytes of a command *)

(** The blob-string frame of a payload, as [writeString] and the loop
    bodies of [WriteCommand] and [WriteByteCommand] emit it. *)
Definition blob (payload : bytes) : bytes :=
  TypeBlobString
    :: bytes_of (strconv.Itoa (len_bytes payload))
    ++ CRLFByte ++ payload ++ CRLFByte.

(** The array header that opens every command. *)
Definition array_header (n : nat) : bytes :=
  TypeArray :: bytes_of (strconv.Itoa (Z.of_nat n)) ++ CRLFByte.

(** The text the type switch of [SendCommands] hands to [writeString];
    [None] in the [default] case. *)
Definition text (a : value) : option string :=
  match a with
  | VString v => Some v
  | VInt64 v => Some (strconv.FormatInt v)
  | VInt v => Some (strconv.FormatInt v)
  | VBytes v => Some (string_of v)
  | VBool v => Some (strconv.FormatBool v)
  | VFloat32 v => Some (strconv.FormatFloat_g64 (float64_of_float32 v))
  | VFloat64 v => Some (strconv.FormatFloat_g64 v)
  | VOther _ => None
  end.

Definition supported (a : value) : bool :=
  match text a with Some _ => true | None => false end.

Definition frame (a : value) : bytes :=
  match text a with Some s => blob (bytes_of s) | None => [] end.

Definition frames (args : list value) : bytes := flat_map frame args.

(** The arguments before the first unsupported one, and that one. *)
Fixpoint accepted (args : list value) : list value :=
  match args with
  | [] => []
  | a :: rest => if supported a then a :: accepted rest else []
  end.

Fixpoint rejected (args : list value) : option other :=
  match args with
  | [] => None
  | VOther o :: _ => Some o
  | _ :: rest => rejected rest
  end.

Definition unsupported_error (o : other) : error :=
  fmt.Errorf "unsupported data type: " o.

(** The loop body of [WriteByteCommand]. *)
Definition writeBytes {S : Type} `{io.Writer S} (arg : bytes) : M unit :=
  bufio.WriteByte TypeBlobString ;;
  bufio.WriteString (strconv.Itoa (len_bytes arg)) ;;
  bufio.Write CRLFByte ;;
  bufio.Write arg ;;
  call (bufio.Write CRLFByte).

(** The three writes that open a command. *)
Definition header {S : Type} `{io.Writer S} (n : nat) : M unit :=
  bufio.WriteByte TypeArray ;;
  bufio.WriteString (strconv.Itoa (Z.of_nat n)) ;;
  call (bufio.Write CRLFByte).

(** A flushed command: the result is [nil], the buffer is empty and the
    sink holds the earlier stream followed by [out]. *)
Definition flushed (w : bufio.Writer bytes) (out : bytes) (r : option error * bufio.Writer bytes) : Prop :=
  fst r = None
  /\ healthy (snd r)
  /\ bufio.size (snd r) = bufio.size w
  /\ bufio.buf (snd r) = []
  /\ bufio.wr (snd r) = stream w ++ out.

(** The outcome of [SendCommands]: [out] was appended to the stream; with
    no rejected argument the result is [nil] and everything has been
    flushed; with one, the result is its error, nothing was flushed on
    purpose, and the sink is untouched when [out] fits the buffer. *)
Definition sent (w : bufio.Writer bytes) (out : bytes) (rej : option other)
    (r : option error * bufio.Writer bytes) : Prop :=
  healthy (snd r)
  /\ bufio.size (snd r) = bufio.size w
  /\ stream (snd r) = stream w ++ out
  /\ fst r = option_map unsupported_error rej
  /\ match rej with
     | None => bufio.buf (snd r) = []
     | Some _ => fits w out -> bufio.wr (snd r) = bufio.wr w
     end.

(** The integer types among the dynamic types. *)
Definition integer_type (t : gotype) : bool :=
  match t with
  | Tint64 | Tint | Tint8 | Tint16 | Tint32
  | Tuint | Tuint8 | Tuint16 | Tuint32 | Tuint64 => true
  | _ => false
  end.

(** ** Further vocabulary *)

(** The texts [SendCommands] hands to [writeString], in order. *)
Definition texts (args : list value) : list string :=
  flat_map (fun a => match text a with Some s => [s] | None => [] end) args.

(** The error a call returns on a writer whose earlier write failed with
    [e]: the unsupported-type error when an argument is rejected, else
    [e]. *)
Definition pending_result (e : error) (args : list value) : error :=
  match rejected args with
  | Some o => unsupported_error o
  | None => e
  end.

(** A decimal digit, as a byte. *)
Definition is_digit_byte (b : byte) : bool :=
  strconv.is_digit (ascii_of_byte b).

(** The bytes of a whole command with byte-slice arguments. *)
Definition command_bytes (args : list bytes) : bytes :=
  array_header (List.length args) ++ flat_map blob args.

(** A writer over a sink that takes no more bytes: the sink is full and
    holds [t0], and either its error is pending or no error is. *)
Definition shut (t0 : bytes) (w : bufio.Writer limited) : Prop :=
  (0 < bufio.size w)%nat
  /\ room (bufio.wr w) = 0%nat
  /\ taken (bufio.wr w) = t0
  /\ (bufio.err w = None \/ bufio.err w = Some errClosed).

(** The same once something has been written: bytes are waiting in the
    buffer unless the error is already pending. *)
Definition closed (t0 : bytes) (w : bufio.Writer limited) : Prop :=
  shut t0 w /\ (bufio.err w = None -> bufio.buf w <> []).

(** ** Example inputs *)

(** A writer as [NewWriter] returns it, over an empty [bytes.Buffer]. *)
Definition fresh : bufio.Writer bytes := NewWriter [].

(** A writer with a 16-byte buffer that holds an earlier, unflushed
    write, over a sink that already received a command. *)
Definition pending : bufio.Writer bytes :=
  {| bufio.err := None; bufio.buf := bytes_of "*1";
     bufio.size := 16; bufio.wr := bytes_of "PING" |}.

(** A 5000-byte text followed by a nil interface value. *)
Definition large_then_nil : list value :=
  [VString (string_of (repeat "a"%byte 5000)); VOther ONil].

(** * Properties *)

(** ** Test vectors of the library model *)

Example Itoa_10 : strconv.Itoa 10 = "10".
Proof. reflexivity. Qed.

Example FormatInt_neg42 : strconv.FormatInt (-42) = "-42".
Proof. reflexivity. Qed.

Example FormatInt_min_int64 :
  strconv.FormatInt (- 2 ^ 63) = "-9223372036854775808".
Proof. reflexivity. Qed.

(** Test vectors of the float formatter: [0.1], [0.5], [1], [100000],
    [1e6], [123456789], [0.0001], [0.00001], the smallest subnormal, the
    largest finite value, [float64(float32(0.1))], [-2.5], [0],
    [0.1 + 0.2], [1e23], [1e21], [2^53], the smallest normal value, pi and
    minus infinity. *)
Example FormatFloat_vectors :
  map strconv.FormatFloat_g64
      [0x1.999999999999ap-4; 0x1p-1; 0x1p+0; 0x1.86ap+16; 0x1.e848p+19;
       0x1.d6f3454p+26; 0x1.a36e2eb1c432dp-14; 0x1.4f8b588e368f1p-17;
       0x1p-1074; 0x1.fffffffffffffp+1023; 0x1.99999ap-4; -0x1.4p+1; 0;
       0x1.3333333333334p-2; 0x1.52d02c7e14af6p+76; 0x1.b1ae4d6e2ef5p+69;
       0x1p+53; 0x1p-1022; 0x1.921fb54442d18p+1; neg_infinity]%float
  = ["0.1"; "0.5"; "1"; "100000"; "1e+06"; "1.23456789e+08"; "0.0001";
     "1e-05"; "5e-324"; "1.7976931348623157e+308"; "0.10000000149011612";
     "-2.5"; "0"; "0.30000000000000004"; "1e+23"; "1e+21";
     "9.007199254740992e+15"; "2.2250738585072014e-308";
     "3.141592653589793"; "-Inf"].
Proof. vm_compute. reflexivity. Qed.

(** The parser on the same vectors: every text written reads back, as a
    float64, to the number it was written from. *)
Example ParseFloat_vectors :
  map (fun f => strconv.ParseFloat (strconv.FormatFloat_g64 f) 64)
      [0x1.999999999999ap-4; 0x1p-1; 0x1p+0; 0x1.86ap+16; 0x1.e848p+19;
       0x1.d6f3454p+26; 0x1.a36e2eb1c432dp-14; 0x1.4f8b588e368f1p-17;
       0x1p-1074; 0x1.fffffffffffffp+1023; 0x1.99999ap-4; -0x1.4p+1; 0;
       0x1.3333333333334p-2; 0x1.52d02c7e14af6p+76; 0x1.b1ae4d6e2ef5p+69;
       0x1p+53; 0x1p-1022; 0x1.921fb54442d18p+1; neg_infinity]%float
  = map Some
      [0x1.999999999999ap-4; 0x1p-1; 0x1p+0; 0x1.86ap+16; 0x1.e848p+19;
       0x1.d6f3454p+26; 0x1.a36e2eb1c432dp-14; 0x1.4f8b588e368f1p-17;
       0x1p-1074; 0x1.fffffffffffffp+1023; 0x1.99999ap-4; -0x1.4p+1; 0;
       0x1.3333333333334p-2; 0x1.52d02c7e14af6p+76; 0x1.b1ae4d6e2ef5p+69;
       0x1p+53; 0x1p-1022; 0x1.921fb54442d18p+1; neg_infinity]%float.
Proof. vm_compute. reflexivity. Qed.

(** Texts that are not the shortest ones, ties, overflow, and the
    32-bit reading. *)
Example ParseFloat_more :
  map (fun '(s, b) => strconv.ParseFloat s b)
      [("0.1000", 64); ("100e-3", 64); ("9007199254740993", 64);
       ("9007199254740995", 64); ("1e309", 64); ("2e-324", 64);
       ("3e-324", 64); ("0.1", 32); ("16777217", 32); ("3.5e38", 32);
       ("1e-46", 32); ("", 64); (".", 64); ("1e", 64); ("1.5x", 64)]
  = [Some 0x1.999999999999ap-4; Some 0x1.999999999999ap-4; Some 0x1p+53;
     Some 0x1.0000000000002p+53; Some infinity; Some 0; Some 0x1p-1074;
     Some 0x1.99999ap-4; Some 0x1p+24; Some infinity; Some 0;
     None; None; None; None]%float.
Proof. vm_compute. reflexivity. Qed.

(** End to end on a new writer: a float64, a float32 (written with the
    digits of its float64 widening) and a two-byte text (e-acute in
    UTF-8, declared length 2). *)
Example SendCommands_floats_and_multibyte :
  let r := SendCommands
             [VFloat64 0x1p-1%float; VFloat32 0x1.99999ap-4%float;
              VString (String (ascii_of_nat 195)
                         (String (ascii_of_nat 169) EmptyString))]
             fresh in
  fst r = None
  /\ bufio.wr (snd r)
     = bytes_of ("*3" ++ CRLF ++ "$3" ++ CRLF ++ "0.5" ++ CRLF
                 ++ "$19" ++ CRLF ++ "0.10000000149011612" ++ CRLF
                 ++ "$2" ++ CRLF
                 ++ String (ascii_of_nat 195)
                      (String (ascii_of_nat 169) EmptyString)
                 ++ CRLF)%string.
Proof. vm_compute. split; reflexivity. Qed.

(** ** The buffered writer *)

Section Buffered.

#[local] Abbreviation W := (bufio.Writer bytes).

Lemma healthy_NewWriter (sink : bytes) : healthy (NewWriter sink).
Proof. repeat split; simpl; unfold bufio.defaultBufSize; lia. Qed.

Lemma fits_buf (w w' : W) (out : bytes) :
  stream w' = stream w ++ out -> bufio.wr w' = bufio.wr w ->
  bufio.buf w' = bufio.buf w ++ out.
Proof.
  unfold stream. intros Hs Hw. rewrite Hw, <- app_assoc in Hs.
  now apply app_inv_head in Hs.
Qed.

Lemma Flush_healthy (w : W) :
  healthy w ->
  bufio.Flush w
  = (None, {| bufio.err := None; bufio.buf := []; bufio.size := bufio.size w;
              bufio.wr := stream w |}).
Proof.
  intros (He & _ & _). unfold bufio.Flush, stream. rewrite He.
  destruct w as [e b s x]; simpl in *. subst e.
  destruct b; simpl; [now rewrite app_nil_r | reflexivity].
Qed.

Lemma writes_WriteByte (c : byte) : writes (bufio.WriteByte c) [c].
Proof.
  intros w Hw. pose proof Hw as (He & Hb & Hs).
  unfold bufio.WriteByte. rewrite He.
  destruct (Nat.leb_spec (bufio.Available w) 0) as [Hav | Hav];
    unfold bufio.Available in Hav.
  - rewrite (Flush_healthy Hw). simpl.
    unfold healthy, stream, fits; simpl.
    repeat split; intros; try lia.
  - simpl. unfold healthy, stream, fits; simpl.
    rewrite length_app; simpl. repeat split; try lia; try assumption.
    now rewrite app_assoc.
Qed.

Lemma fill_fits (p : bytes) (w : W) :
  (List.length p <= bufio.Available w)%nat ->
  bufio.fill p w
  = (List.length p,
     {| bufio.err := bufio.err w; bufio.buf := bufio.buf w ++ p;
        bufio.size := bufio.size w; bufio.wr := bufio.wr w |}).
Proof.
  intros Hp. unfold bufio.fill.
  rewrite Nat.min_r by assumption. now rewrite firstn_all.
Qed.

Lemma fill_Flush (p : bytes) (w : W) :
  healthy w -> (bufio.Available w < List.length p)%nat ->
  let n := bufio.Available w in
  fst (bufio.fill p w) = n
  /\ snd (bufio.Flush (snd (bufio.fill p w)))
     = {| bufio.err := None; bufio.buf := []; bufio.size := bufio.size w;
          bufio.wr := stream w ++ firstn n p |}.
Proof.
  intros Hw Hp n. pose proof Hw as (He & Hb & Hs).
  unfold bufio.fill. fold n. rewrite Nat.min_l by (subst n; lia).
  split; [reflexivity |]. simpl.
  rewrite Flush_healthy.
  - unfold stream; simpl. now rewrite app_assoc.
  - unfold healthy; simpl. rewrite length_app, length_firstn.
    subst n; unfold bufio.Available in *.
    repeat split; try assumption; lia.
Qed.

Lemma Write_loop_exit (fuel : nat) :
  forall (p : bytes) (nn : nat) (w : W),
    healthy w ->
    ((if (List.length p <=? bufio.Available w)%nat then 0
      else match bufio.buf w with [] => 1 | _ => 2 end) < fuel)%nat ->
    loop_exit p w (bufio.Write_loop fuel p nn w).
Proof.
  induction fuel as [| fuel IH]; intros p nn w Hw Hf; [lia |].
  pose proof Hw as (He & Hb & Hs). cbn [bufio.Write_loop]. rewrite He.
  destruct (Nat.leb_spec (List.length p) (bufio.Available w)) as [Hp | Hp].
  - unfold loop_exit. repeat split; try assumption; reflexivity.
  - assert (Hempty : (bufio.Buffered w =? 0)%nat = true
                     <-> bufio.buf w = []).
    { unfold bufio.Buffered. rewrite Nat.eqb_eq. apply length_zero_iff_nil. }
    destruct (bufio.Buffered w =? 0)%nat eqn:Hbw.
    + assert (Hnil : bufio.buf w = []) by now apply Hempty.
      rewrite Hnil in Hf. simpl.
      match goal with
      | |- loop_exit _ _ (bufio.Write_loop _ _ _ ?x) => set (w1 := x)
      end.
      assert (H1 : healthy w1) by (unfold healthy; simpl; auto).
      assert (Hfit : (List.length (@nil byte) <= bufio.Available w1)%nat)
        by (simpl; lia).
      specialize (IH [] (nn + List.length p)%nat w1 H1 ltac:(simpl; lia)).
      destruct (bufio.Write_loop fuel [] (nn + List.length p) w1)
        as [[p' nn'] w'].
      unfold loop_exit in *.
      destruct IH as (_ & _ & _ & _ & Hid).
      destruct (Hid Hfit) as [-> ->].
      repeat split; try assumption; simpl; try lia.
      unfold stream; simpl. rewrite Hnil. now rewrite !app_nil_r.
    + assert (Hne : bufio.buf w <> []).
      { intros E. apply Hempty in E. congruence. }
      destruct (bufio.buf w) eqn:Ebuf; [contradiction |].
      rewrite <- Ebuf in *.
      destruct (fill_Flush p Hw Hp) as [Hn Hfl].
      destruct (bufio.fill p w) as [n b1] eqn:Efill. simpl in Hn, Hfl.
      rewrite Hfl. subst n.
      set (n := bufio.Available w) in *.
      match goal with
      | |- loop_exit _ _ (bufio.Write_loop _ _ _ ?x) => set (w2 := x)
      end.
      assert (H2 : healthy w2) by (unfold healthy; simpl; repeat split; lia).
      specialize (IH (skipn n p) (nn + n)%nat w2 H2).
      assert (Hf2 : ((if (List.length (skipn n p) <=? bufio.Available w2)%nat
                      then 0 else match bufio.buf w2 with
                                  | [] => 1 | _ => 2 end) < fuel)%nat).
      { simpl.
        destruct (List.length (skipn n p) <=? bufio.Available w2)%nat; lia. }
      specialize (IH Hf2).
      destruct (bufio.Write_loop fuel (skipn n p) (nn + n) w2)
        as [[p' nn'] w'].
      unfold loop_exit in *.
      destruct IH as (Hh & Hsz & Hst & Hav & _).
      repeat split; try apply Hh; try assumption.
      * rewrite Hst. unfold stream at 1; simpl.
        rewrite app_nil_r, <- !app_assoc. now rewrite firstn_skipn.
      * intros. lia.
      * intros. lia.
Qed.

Lemma WriteString_loop_exit (fuel : nat) :
  forall (s : bytes) (nn : nat) (w : W),
    healthy w ->
    (List.length s + match bufio.buf w with [] => 0 | _ => 1 end < fuel)%nat ->
    loop_exit s w (bufio.WriteString_loop fuel s nn w).
Proof.
  induction fuel as [| fuel IH]; intros s nn w Hw Hf; [lia |].
  pose proof Hw as (He & Hb & Hs). cbn [bufio.WriteString_loop]. rewrite He.
  destruct (Nat.leb_spec (List.length s) (bufio.Available w)) as [Hp | Hp].
  - unfold loop_exit. repeat split; try assumption; reflexivity.
  - unfold bufio.forward.
    destruct (bufio.Buffered w =? 0)%nat eqn:Hbw.
    { assert (Hnil : bufio.buf w = []).
      { apply Nat.eqb_eq in Hbw. now apply length_zero_iff_nil. }
      cbn [io.WriteString bytes_Buffer]. unfold string_of, bytes_of.
      rewrite list_byte_of_string_of_list_byte.
      match goal with
      | |- loop_exit _ _ (bufio.WriteString_loop _ _ _ ?x) => set (w1 := x)
      end.
      assert (H1 : healthy w1) by (unfold healthy; simpl; auto).
      assert (Hfit : (List.length (@nil byte) <= bufio.Available w1)%nat)
        by (simpl; lia).
      assert (Hf1 : (List.length (@nil byte)
                     + match bufio.buf w1 with [] => 0 | _ => 1 end
                     < fuel)%nat).
      { simpl. rewrite Hnil. simpl. lia. }
      specialize (IH [] (nn + List.length s)%nat w1 H1 Hf1).
      destruct (bufio.WriteString_loop fuel [] (nn + List.length s) w1)
        as [[p' nn'] w'].
      unfold loop_exit in *.
      destruct IH as (_ & _ & _ & _ & Hid).
      destruct (Hid Hfit) as [-> ->].
      repeat split; try assumption; simpl; try lia.
      unfold stream; simpl. rewrite Hnil. now rewrite !app_nil_r. }
    destruct (fill_Flush s Hw Hp) as [Hn Hfl].
    destruct (bufio.fill s w) as [n b1] eqn:Efill. simpl in Hn, Hfl.
    rewrite Hfl. subst n.
    set (n := bufio.Available w) in *.
    match goal with
    | |- loop_exit _ _ (bufio.WriteString_loop _ _ _ ?x) => set (w2 := x)
    end.
    assert (H2 : healthy w2) by (unfold healthy; simpl; repeat split; lia).
    assert (Hlen : List.length (skipn n s) = (List.length s - n)%nat)
      by apply length_skipn.
    assert (Hf2 : (List.length (skipn n s)
                   + match bufio.buf w2 with [] => 0 | _ => 1 end
                   < fuel)%nat).
    { simpl. rewrite Hlen. subst n. unfold bufio.Available in *.
      destruct (bufio.buf w); simpl in *; lia. }
    specialize (IH (skipn n s) (nn + n)%nat w2 H2 Hf2).
    destruct (bufio.WriteString_loop fuel (skipn n s) (nn + n) w2)
      as [[p' nn'] w'].
    unfold loop_exit in *.
    destruct IH as (Hh & Hsz & Hst & Hav & _).
    repeat split; try apply Hh; try assumption.
    + rewrite Hst. unfold stream at 1; simpl.
      rewrite app_nil_r, <- !app_assoc. now rewrite firstn_skipn.
    + intros. lia.
    + intros. lia.
Qed.

(** What follows either loop: the rest of the data goes into the buffer. *)
Lemma exit_then_fill (p : bytes) (w : W) (r : bytes * nat * W) :
  healthy w -> loop_exit p w r ->
  let '(p', nn, w') := r in
  let w'' := snd (bufio.fill p' w') in
  bufio.err w' = None
  /\ healthy w''
  /\ bufio.size w'' = bufio.size w
  /\ stream w'' = stream w ++ p
  /\ (fits w p -> bufio.wr w'' = bufio.wr w).
Proof.
  intros Hw. destruct r as [[p' nn] w']. unfold loop_exit.
  intros (Hh & Hsz & Hst & Hav & Hid).
  pose proof Hh as (He & Hb & Hs). pose proof Hw as (_ & Hbw & _).
  rewrite (fill_fits _ _ Hav). simpl.
  unfold healthy, stream, fits in *; simpl.
  rewrite length_app. unfold bufio.Available in *.
  repeat split; try assumption; try lia.
  - now rewrite app_assoc.
  - intros Hfit. destruct Hid as [-> _]; [lia | reflexivity].
Qed.

Lemma writes_Write (p : bytes) : writes (bufio.Write p) p.
Proof.
  intros w Hw. unfold bufio.Write.
  assert (Hx : loop_exit p w (bufio.Write_loop 3 p 0 w)).
  { apply Write_loop_exit; [assumption |].
    destruct (List.length p <=? bufio.Available w)%nat; [lia |].
    destruct (bufio.buf w); lia. }
  apply (@exit_then_fill _ _ _ Hw) in Hx.
  destruct (bufio.Write_loop 3 p 0 w) as [[p' nn] w'].
  destruct Hx as (He & Hx). rewrite He.
  destruct (bufio.fill p' w') as [n w'']. exact Hx.
Qed.

Lemma length_bytes_of (s : string) :
  List.length (bytes_of s) = String.length s.
Proof.
  unfold bytes_of, list_byte_of_string.
  rewrite length_map. induction s; simpl; congruence.
Qed.

Lemma writes_WriteString (s : string) :
  writes (bufio.WriteString s) (bytes_of s).
Proof.
  intros w Hw. unfold bufio.WriteString.
  set (p := bytes_of s).
  assert (Hx : loop_exit p w
                 (bufio.WriteString_loop (2 + List.length p) p 0 w)).
  { apply WriteString_loop_exit; [assumption |].
    destruct (bufio.buf w); lia. }
  apply (@exit_then_fill _ _ _ Hw) in Hx.
  destruct (bufio.WriteString_loop (2 + List.length p) p 0 w)
    as [[p' nn] w'].
  destruct Hx as (He & Hx). rewrite He.
  destruct (bufio.fill p' w') as [n w'']. exact Hx.
Qed.

(** Sequencing: the outputs are concatenated. *)
Lemma writes_seq {A B} (c1 : M A) (c2 : M B) (o1 o2 : bytes) :
  writes c1 o1 -> writes c2 o2 -> writes (c1 ;; c2) (o1 ++ o2).
Proof.
  intros H1 H2 w Hw. unfold bind, call. simpl.
  destruct (H1 w Hw) as (Hh1 & Hs1 & Hst1 & Hq1).
  destruct (H2 _ Hh1) as (Hh2 & Hs2 & Hst2 & Hq2).
  destruct (c1 w) as [a w1]; simpl in *.
  destruct (c2 w1) as [b w2]; simpl in *.
  repeat split; try apply Hh2; try congruence.
  - now rewrite Hst2, Hst1, app_assoc.
  - unfold fits in *. rewrite length_app. intros Hfit.
    assert (Hw1 : bufio.wr w1 = bufio.wr w) by (apply Hq1; lia).
    rewrite Hq2; [assumption |].
    rewrite (@fits_buf _ _ _ Hst1 Hw1), length_app. lia.
Qed.

Lemma writes_call {A} (c : M A) (o : bytes) : writes c o -> writes (call c) o.
Proof. intros Hc w Hw. exact (Hc w Hw). Qed.

End Buffered.

Section Encoding.

#[local] Abbreviation W := (bufio.Writer bytes).

Lemma len_bytes_of (s : string) : len_bytes (bytes_of s) = len s.
Proof. unfold len_bytes, len. now rewrite length_bytes_of. Qed.

Lemma writes_writeString (str : string) :
  writes (writeString str) (blob (bytes_of str)).
Proof.
  unfold writeString, blob. rewrite len_bytes_of.
  change (TypeBlobString :: ?l) with ([TypeBlobString] ++ l).
  repeat apply writes_seq;
    auto using writes_WriteByte, writes_WriteString, writes_Write,
               writes_call.
Qed.

Lemma writes_writeBytes (arg : bytes) : writes (writeBytes arg) (blob arg).
Proof.
  unfold writeBytes, blob.
  change (TypeBlobString :: ?l) with ([TypeBlobString] ++ l).
  repeat apply writes_seq;
    auto using writes_WriteByte, writes_WriteString, writes_Write,
               writes_call.
Qed.

Lemma writes_header (n : nat) : writes (header n) (array_header n).
Proof.
  unfold header, array_header.
  change (TypeArray :: ?l) with ([TypeArray] ++ l).
  repeat apply writes_seq;
    auto using writes_WriteByte, writes_WriteString, writes_Write,
               writes_call.
Qed.

Lemma flushed_Flush (w : W) :
  healthy w -> flushed w [] (bufio.Flush w).
Proof.
  intros Hw. rewrite (Flush_healthy Hw). pose proof Hw as (_ & _ & Hs).
  unfold flushed, healthy; simpl.
  rewrite app_nil_r. repeat split; auto; lia.
Qed.

Lemma flushed_seq {A} (c : M A) (k : M (option error)) (o1 o2 : bytes)
    (w : W) :
  writes c o1 -> healthy w ->
  (forall w1, healthy w1 -> flushed w1 o2 (k w1)) ->
  flushed w (o1 ++ o2) ((c ;; k) w).
Proof.
  intros Hc Hw Hk. unfold bind, call; simpl.
  destruct (Hc w Hw) as (Hh1 & Hs1 & Hst1 & _).
  destruct (Hk _ Hh1) as (Hr & Hh2 & Hs2 & Hb2 & Hw2).
  unfold flushed. repeat split; try apply Hh2; try assumption.
  - congruence.
  - now rewrite Hw2, Hst1, app_assoc.
Qed.

Lemma WriteCommand_range_flushed (args : list string) :
  forall w : W, healthy w ->
    flushed w (flat_map (fun a => blob (bytes_of a)) args)
      (WriteCommand_range args w).
Proof.
  induction args as [| arg rest IH]; intros w Hw.
  - apply flushed_Flush, Hw.
  - replace (WriteCommand_range (arg :: rest) w)
      with ((writeString arg ;; WriteCommand_range rest) w)
      by (cbn [WriteCommand_range]; cbv [writeString bind call snd];
          reflexivity).
    cbn [flat_map].
    apply flushed_seq; auto using writes_writeString.
Qed.

Lemma WriteCommand_flushed (args : list string) (w : W) :
  healthy w ->
  flushed w
    (array_header (List.length args)
       ++ flat_map (fun a => blob (bytes_of a)) args)
    (WriteCommand args w).
Proof.
  intros Hw.
  replace (WriteCommand args w)
    with ((header (List.length args) ;; WriteCommand_range args) w)
    by (cbv [WriteCommand header bind call snd]; reflexivity).
  apply flushed_seq;
    auto using writes_header, WriteCommand_range_flushed.
Qed.

Lemma WriteByteCommand_range_flushed (args : list bytes) :
  forall w : W, healthy w ->
    flushed w (flat_map blob args) (WriteByteCommand_range args w).
Proof.
  induction args as [| arg rest IH]; intros w Hw.
  - apply flushed_Flush, Hw.
  - replace (WriteByteCommand_range (arg :: rest) w)
      with ((writeBytes arg ;; WriteByteCommand_range rest) w)
      by (cbn [WriteByteCommand_range]; cbv [writeBytes bind call snd];
          reflexivity).
    cbn [flat_map].
    apply flushed_seq; auto using writes_writeBytes.
Qed.

Lemma WriteByteCommand_flushed (args : list bytes) (w : W) :
  healthy w ->
  flushed w (array_header (List.length args) ++ flat_map blob args)
    (WriteByteCommand args w).
Proof.
  intros Hw.
  replace (WriteByteCommand args w)
    with ((header (List.length args) ;; WriteByteCommand_range args) w)
    by (cbv [WriteByteCommand header bind call snd]; reflexivity).
  apply flushed_seq;
    auto using writes_header, WriteByteCommand_range_flushed.
Qed.

Lemma sent_seq {A} (c : M A) (k : M (option error)) (o1 o2 : bytes)
    (rej : option other) (w : W) :
  writes c o1 -> healthy w ->
  (forall w1, healthy w1 -> sent w1 o2 rej (k w1)) ->
  sent w (o1 ++ o2) rej ((c ;; k) w).
Proof.
  intros Hc Hw Hk. unfold bind, call; simpl.
  destruct (Hc w Hw) as (Hh1 & Hs1 & Hst1 & Hq1).
  destruct (Hk _ Hh1) as (Hh2 & Hs2 & Hst2 & Hr & Hq2).
  unfold sent. repeat split; try apply Hh2; try assumption.
  - congruence.
  - now rewrite Hst2, Hst1, app_assoc.
  - destruct rej; [| assumption].
    unfold fits in *. rewrite length_app. intros Hfit.
    assert (Hw1 : bufio.wr (snd (c w)) = bufio.wr w) by (apply Hq1; lia).
    rewrite Hq2; [assumption |].
    rewrite (@fits_buf _ _ _ Hst1 Hw1), length_app. lia.
Qed.

Lemma SendCommands_range_cons {S : Type} `{io.Writer S} (a : value)
    (s : string) (rest : list value) (w : bufio.Writer S) :
  text a = Some s ->
  SendCommands_range (a :: rest) w
  = (writeString s ;; SendCommands_range rest) w.
Proof.
  destruct a; cbn [text SendCommands_range]; intros E; inversion E;
    reflexivity.
Qed.

Lemma SendCommands_range_sent (args : list value) :
  forall w : W, healthy w ->
    sent w (frames (accepted args)) (rejected args)
      (SendCommands_range args w).
Proof.
  induction args as [| a rest IH]; intros w Hw.
  - simpl. rewrite (Flush_healthy Hw). pose proof Hw as (_ & _ & Hs).
    unfold sent, healthy, stream; simpl.
    rewrite !app_nil_r. repeat split; auto; lia.
  - destruct (text a) as [s |] eqn:Ea.
    + rewrite (@SendCommands_range_cons _ _ a s rest w Ea).
      replace (rejected (a :: rest)) with (rejected rest)
        by (destruct a; simpl in *; congruence).
      replace (frames (accepted (a :: rest)))
        with (blob (bytes_of s) ++ frames (accepted rest)).
      * apply sent_seq; auto using writes_writeString.
      * cbn [accepted]. unfold supported. rewrite Ea.
        unfold frames. cbn [flat_map]. unfold frame at 2. now rewrite Ea.
    + destruct a; simpl in Ea; try discriminate.
      pose proof Hw as (He & Hb & Hs).
      unfold sent, ret; simpl. rewrite app_nil_r.
      repeat split; auto.
Qed.

Lemma SendCommands_sent (args : list value) (w : W) :
  healthy w ->
  sent w (array_header (List.length args) ++ frames (accepted args))
    (rejected args) (SendCommands args w).
Proof.
  intros Hw.
  replace (SendCommands args w)
    with ((header (List.length args) ;; SendCommands_range args) w)
    by (cbv [SendCommands header bind call snd]; reflexivity).
  apply sent_seq; auto using writes_header, SendCommands_range_sent.
Qed.

Lemma accepted_all (args : list value) :
  forallb supported args = true ->
  accepted args = args /\ rejected args = None.
Proof.
  induction args as [| a rest IH]; simpl; [auto |].
  intros H. apply andb_prop in H as [Ha Hr].
  rewrite Ha. destruct (IH Hr) as [-> ->].
  split; [reflexivity |].
  destruct a; simpl in *; auto; discriminate.
Qed.

Lemma accepted_prefix (pre post : list value) (o : other) :
  forallb supported pre = true ->
  accepted (pre ++ VOther o :: post) = pre
  /\ rejected (pre ++ VOther o :: post) = Some o.
Proof.
  induction pre as [| a rest IH]; simpl; [auto |].
  intros H. apply andb_prop in H as [Ha Hr].
  rewrite Ha. destruct (IH Hr) as [-> ->].
  split; [reflexivity |].
  destruct a; simpl in *; auto; discriminate.
Qed.

(** With every argument supported the command is written and flushed. *)
Lemma SendCommands_flushed (args : list value) (w : W) :
  healthy w -> forallb supported args = true ->
  flushed w (array_header (List.length args) ++ frames args)
    (SendCommands args w).
Proof.
  intros Hw Hall. destruct (accepted_all _ Hall) as [Ha Hr].
  pose proof (SendCommands_sent args Hw) as Hsent.
  rewrite Ha, Hr in Hsent.
  destruct Hsent as (Hh & Hsz & Hst & Hres & Hbuf).
  unfold flushed. repeat split; try apply Hh; try assumption.
  unfold stream at 1 in Hst. now rewrite Hbuf, app_nil_r in Hst.
Qed.

End Encoding.

(** ** Decimal text of integers *)

Section Decimal.

Import strconv.

Lemma digit_char_spec (d : Z) :
  0 <= d < 10 ->
  is_digit (digit_char d) = true
  /\ digit_val (digit_char d) = d
  /\ (0 < d -> Ascii.eqb (digit_char d) "0" = false).
Proof.
  intros Hd.
  assert (Hcases : d = 0 \/ d = 1 \/ d = 2 \/ d = 3 \/ d = 4 \/ d = 5
                   \/ d = 6 \/ d = 7 \/ d = 8 \/ d = 9) by lia.
  repeat (destruct Hcases as [-> | Hcases]; [repeat split; intros; try reflexivity; lia |]).
  subst d. repeat split; intros; try reflexivity; lia.
Qed.

Lemma formatBits_nonempty (fuel : nat) :
  forall u acc, acc <> "" -> formatBits fuel u acc <> "".
Proof.
  induction fuel as [| fuel IH]; intros u acc Hacc; cbn [formatBits];
    [assumption |].
  destruct (u <? 10); [discriminate |]. apply IH. discriminate.
Qed.

Lemma formatBits_parse (fuel : nat) :
  forall u, 0 <= u < 2 ^ Z.of_nat fuel ->
    exists k, forall acc a,
      parse_digits (formatBits fuel u acc) a
      = parse_digits acc (a * 10 ^ Z.of_nat k + u).
Proof.
  induction fuel as [| fuel IH]; intros u Hu.
  - exists 0%nat. intros acc a. cbn [formatBits].
    change (Z.of_nat 0) with 0 in *. rewrite Z.pow_0_r in *.
    f_equal. lia.
  - rewrite Nat2Z.inj_succ, Z.pow_succ_r in Hu by lia.
    cbn [formatBits]. destruct (Z.ltb_spec u 10) as [Hlt | Hge].
    + exists 1%nat. intros acc a. cbn [parse_digits].
      rewrite Z.mod_small by lia.
      destruct (@digit_char_spec u ltac:(lia)) as (-> & -> & _).
      f_equal. change (Z.of_nat 1) with 1. rewrite Z.pow_1_r. lia.
    + assert (Hdiv : 0 <= u / 10 < 2 ^ Z.of_nat fuel).
      { split; [apply Z.div_pos; lia |].
        apply Z.div_lt_upper_bound; lia. }
      destruct (IH _ Hdiv) as [k Hk].
      exists (Datatypes.S k). intros acc a. rewrite Hk. cbn [parse_digits].
      assert (Hm : 0 <= u mod 10 < 10) by (apply Z.mod_pos_bound; lia).
      destruct (@digit_char_spec _ Hm) as (-> & -> & _).
      f_equal. rewrite Nat2Z.inj_succ, Z.pow_succ_r by lia.
      pose proof (Z.div_mod u 10 ltac:(lia)). lia.
Qed.

Lemma formatBits_canonical (fuel : nat) :
  forall u acc, 0 < u < 2 ^ Z.of_nat fuel -> all_digits acc = true ->
    canonical_positive (formatBits fuel u acc) = true.
Proof.
  induction fuel as [| fuel IH]; intros u acc Hu Hacc.
  - change (Z.of_nat 0) with 0 in Hu. rewrite Z.pow_0_r in Hu. lia.
  - rewrite Nat2Z.inj_succ, Z.pow_succ_r in Hu by lia.
    assert (Hm : 0 <= u mod 10 < 10) by (apply Z.mod_pos_bound; lia).
    cbn [formatBits]. destruct (Z.ltb_spec u 10) as [Hlt | Hge].
    + rewrite Z.mod_small by lia.
      destruct (@digit_char_spec u ltac:(lia)) as (Hd & _ & Hz).
      cbn [canonical_positive]. now rewrite Hd, Hz, Hacc by lia.
    + apply IH.
      * split; [apply Z.div_str_pos; lia |].
        apply Z.div_lt_upper_bound; lia.
      * cbn [all_digits]. destruct (@digit_char_spec _ Hm) as (-> & _ & _).
        assumption.
Qed.

Lemma log2_fuel (u : Z) :
  0 <= u -> u < 2 ^ Z.of_nat (Datatypes.S (Z.to_nat (Z.log2 u))).
Proof.
  intros Hu. rewrite Nat2Z.inj_succ, Z2Nat.id by apply Z.log2_nonneg.
  destruct (Z.eq_dec u 0) as [-> | Hne]; [reflexivity |].
  apply Z.log2_spec. lia.
Qed.

Lemma ParseUint_FormatUint (u : Z) :
  0 <= u -> ParseUint (FormatUint u) = Some u.
Proof.
  intros Hu. unfold FormatUint, ParseUint.
  destruct (@formatBits_parse (Datatypes.S (Z.to_nat (Z.log2 u))) u)
    as [k Hk]; [split; [assumption | now apply log2_fuel] |].
  destruct (formatBits _ u "") eqn:E.
  - exfalso. revert E. cbn [formatBits]. destruct (u <? 10); [discriminate |].
    apply formatBits_nonempty. discriminate.
  - rewrite <- E, Hk. reflexivity.
Qed.

Lemma canonical_positive_digit (s : string) :
  canonical_positive s = true ->
  canonical_decimal s = true /\ ParseInt s = ParseUint s.
Proof.
  destruct s as [| c s']; cbn [canonical_positive]; [discriminate |].
  intros H. apply andb_prop in H as [H Hall].
  apply andb_prop in H as [Hd Hz].
  destruct c as [[] [] [] [] [] [] [] []]; try discriminate;
    unfold canonical_decimal, ParseInt; cbn [canonical_positive];
    cbv beta iota; rewrite ?Hd, ?Hz, ?Hall; auto.
Qed.

Lemma FormatUint_canonical (u : Z) :
  0 < u -> canonical_positive (FormatUint u) = true.
Proof.
  intros Hu. apply formatBits_canonical; [| reflexivity].
  split; [assumption | apply log2_fuel; lia].
Qed.

(** [FormatInt] writes canonical base-10 text that reads back as the
    number. *)
Lemma FormatInt_canonical (i : Z) :
  canonical_decimal (FormatInt i) = true /\ ParseInt (FormatInt i) = Some i.
Proof.
  unfold FormatInt. destruct (Z.ltb_spec i 0) as [Hneg | Hpos].
  - unfold canonical_decimal, ParseInt. cbv beta iota.
    rewrite FormatUint_canonical by lia.
    rewrite ParseUint_FormatUint by lia. cbn [option_map].
    now rewrite Z.opp_involutive.
  - destruct (Z.eq_dec i 0) as [-> | Hne]; [split; reflexivity |].
    destruct (canonical_positive_digit (FormatUint i)) as [-> ->];
      [apply FormatUint_canonical; lia |].
    split; [reflexivity | apply ParseUint_FormatUint; lia].
Qed.

End Decimal.

(** ** The claims *)

Section Claims.

#[local] Abbreviation W := (bufio.Writer bytes).

Lemma frames_app (pre post : list value) (a : value) :
  frames (pre ++ a :: post) = frames pre ++ frame a ++ frames post.
Proof. unfold frames. now rewrite flat_map_app. Qed.

Lemma supported_app (pre post : list value) (a : value) :
  forallb supported pre = true -> supported a = true ->
  forallb supported post = true ->
  forallb supported (pre ++ a :: post) = true.
Proof.
  intros Hpre Ha Hpost. rewrite forallb_app. simpl.
  now rewrite Hpre, Ha, Hpost.
Qed.

(** The result of [SendCommands] is decided by the arguments alone, over
    any sink and in any state of the writer. *)
Lemma SendCommands_range_result {S : Type} `{io.Writer S}
    (args : list value) :
  forall w : bufio.Writer S,
    rejected args <> None ->
    fst (SendCommands_range args w)
    = option_map unsupported_error (rejected args).
Proof.
  induction args as [| a rest IH]; intros w Hrej; [now elim Hrej |].
  destruct (text a) as [s |] eqn:Ea.
  - rewrite (@SendCommands_range_cons _ _ a s rest w Ea).
    assert (Hr : rejected (a :: rest) = rejected rest)
      by (destruct a; cbn [text rejected] in *; congruence).
    rewrite Hr in *. unfold bind, call. cbv beta iota zeta.
    now apply IH.
  - destruct a; cbn [text] in Ea; try discriminate. reflexivity.
Qed.

Lemma SendCommands_result {S : Type} `{io.Writer S} (args : list value)
    (w : bufio.Writer S) :
  rejected args <> None ->
  fst (SendCommands args w) = option_map unsupported_error (rejected args).
Proof.
  intros Hrej. unfold SendCommands, bind, call. cbv beta iota zeta.
  now apply SendCommands_range_result.
Qed.

(** C1. Every argument of [WriteByteCommand], [WriteCommand] and
    [SendCommands] is emitted as one blob-string frame: the marker, the
    decimal text of the payload's length in bytes, the terminator, the
    payload bytes as they are, and the terminator; the decimal text
    reads back as that length.  This holds for every payload, whatever
    bytes it contains; a byte-slice argument of [SendCommands] keeps its
    bytes through the conversion to a string. *)
Theorem blob_frames_carry_byte_length (w : W) (Hw : healthy w) :
  (forall args : list bytes,
      flushed w (array_header (List.length args) ++ flat_map blob args)
        (WriteByteCommand args w))
  /\ (forall args : list string,
         flushed w
           (array_header (List.length args)
              ++ flat_map (fun a => blob (bytes_of a)) args)
           (WriteCommand args w))
  /\ (forall args : list value,
         forallb supported args = true ->
         flushed w (array_header (List.length args) ++ flat_map frame args)
           (SendCommands args w))
  /\ (forall payload : bytes,
         blob payload
         = TypeBlobString
             :: bytes_of (strconv.Itoa (len_bytes payload))
             ++ CRLFByte ++ payload ++ CRLFByte
         /\ strconv.ParseInt (strconv.Itoa (len_bytes payload))
            = Some (Z.of_nat (List.length payload)))
  /\ (forall v : string, frame (VString v) = blob (bytes_of v))
  /\ (forall v : bytes, frame (VBytes v) = blob v).
Proof.
  split; [intros; now apply WriteByteCommand_flushed |].
  split; [intros; now apply WriteCommand_flushed |].
  split; [intros; now apply SendCommands_flushed |].
  split; [| split].
  - intros payload. split; [reflexivity |].
    apply FormatInt_canonical.
  - reflexivity.
  - intros v. unfold frame, text, string_of, bytes_of.
    now rewrite list_byte_of_string_of_list_byte.
Qed.

(** C2. [WriteCommand("SET", "key1", "value1")] writes exactly
    [*3 $3 SET $4 key1 $6 value1], each item followed by the terminator,
    flushes it and returns [nil]. *)
Theorem WriteCommand_SET_key1_value1 (w : W) (Hw : healthy w) :
  flushed w
    (bytes_of ("*3" ++ CRLF ++ "$3" ++ CRLF ++ "SET" ++ CRLF
               ++ "$4" ++ CRLF ++ "key1" ++ CRLF
               ++ "$6" ++ CRLF ++ "value1" ++ CRLF)%string)
    (WriteCommand ["SET"; "key1"; "value1"] w).
Proof. exact (WriteCommand_flushed ["SET"; "key1"; "value1"] Hw). Qed.

(** C7. [WriteCommand()] with no argument writes exactly the array frame
    [*0] and the terminator, with no frame after it. *)
Theorem WriteCommand_empty (w : W) (Hw : healthy w) :
  flushed w (bytes_of ("*0" ++ CRLF)%string) (WriteCommand [] w).
Proof. exact (WriteCommand_flushed [] Hw). Qed.

Lemma flushed_stream (w : W) (out : bytes) (r : option error * W) :
  flushed w out r -> stream (snd r) = stream w ++ out.
Proof.
  intros (_ & _ & _ & Hb & Hwr). unfold stream at 1.
  now rewrite Hb, Hwr, app_nil_r.
Qed.

Lemma SendCommands_one_flushed (pre post : list value) (a : value)
    (s : string) (w : W) :
  healthy w -> text a = Some s ->
  forallb supported pre = true -> forallb supported post = true ->
  flushed w
    (array_header (List.length (pre ++ a :: post))
       ++ frames pre ++ blob (bytes_of s) ++ frames post)
    (SendCommands (pre ++ a :: post) w).
Proof.
  intros Hw Ha Hpre Hpost.
  replace (blob (bytes_of s)) with (frame a) by (unfold frame; now rewrite Ha).
  rewrite <- frames_app. apply SendCommands_flushed; [assumption |].
  apply supported_app; try assumption. unfold supported. now rewrite Ha.
Qed.

(** C3, as amended. With an unsupported argument, [SendCommands] returns
    the error of the first such argument and does not call [Flush]: the
    array header and the frames of the arguments before it, and nothing
    else, have been appended to the stream.  When these bytes fit the free
    space of the buffer they all stay in it and the sink is untouched. *)
Theorem SendCommands_unsupported_aborts (pre post : list value) (o : other)
    (w : W) (Hw : healthy w) (Hpre : forallb supported pre = true) :
  let args := pre ++ VOther o :: post in
  let out := array_header (List.length args) ++ frames pre in
  let r := SendCommands args w in
  fst r = Some (unsupported_error o)
  /\ healthy (snd r)
  /\ stream (snd r) = stream w ++ out
  /\ (fits w out ->
      bufio.wr (snd r) = bufio.wr w /\ bufio.buf (snd r) = bufio.buf w ++ out).
Proof.
  intros args out r.
  destruct (@accepted_prefix pre post o Hpre) as [Ha Hr].
  pose proof (SendCommands_sent args Hw) as Hsent.
  fold r in Hsent. subst args. rewrite Ha, Hr in Hsent.
  destruct Hsent as (Hh & _ & Hst & Hres & Hq).
  repeat split; try apply Hh; try assumption.
  - now apply Hq.
  - apply fits_buf; [assumption | now apply Hq].
Qed.

(** C5, as amended. An [int64] or [int] argument is written as the
    blob string of [FormatInt]'s text, which is canonical base 10 (an
    optional [-], then digits only, no leading zero) and reads back as the
    number; [SendCommands("EXPIRE", "key1", int64(10))] writes
    [*3 $6 EXPIRE $4 key1 $2 10], each item followed by the terminator. *)
Theorem SendCommands_integer_canonical (w : W) (Hw : healthy w) :
  (forall (pre post : list value) (v : Z) (a : value),
      a = VInt64 v \/ a = VInt v ->
      forallb supported pre = true -> forallb supported post = true ->
      flushed w
        (array_header (List.length (pre ++ a :: post))
           ++ frames pre ++ blob (bytes_of (strconv.FormatInt v))
           ++ frames post)
        (SendCommands (pre ++ a :: post) w))
  /\ (forall v : Z,
         strconv.canonical_decimal (strconv.FormatInt v) = true
         /\ strconv.ParseInt (strconv.FormatInt v) = Some v)
  /\ flushed w
       (bytes_of ("*3" ++ CRLF ++ "$6" ++ CRLF ++ "EXPIRE" ++ CRLF
                  ++ "$4" ++ CRLF ++ "key1" ++ CRLF
                  ++ "$2" ++ CRLF ++ "10" ++ CRLF)%string)
       (SendCommands [VString "EXPIRE"; VString "key1"; VInt64 10] w).
Proof.
  split; [| split].
  - intros pre post v a [-> | ->] Hpre Hpost;
      now apply SendCommands_one_flushed.
  - apply FormatInt_canonical.
  - exact (@SendCommands_flushed
             [VString "EXPIRE"; VString "key1"; VInt64 10] w Hw eq_refl).
Qed.

(** C6. A boolean argument is written as the blob string whose payload is
    the text [true] or [false] (of declared length 4 or 5), never as a
    frame of another type; [SendCommands(true)] writes the one-element
    array [*1 $4 true]. *)
Theorem SendCommands_bool_blob (w : W) (Hw : healthy w) :
  (forall (pre post : list value) (b : bool),
      forallb supported pre = true -> forallb supported post = true ->
      flushed w
        (array_header (List.length (pre ++ VBool b :: post))
           ++ frames pre
           ++ bytes_of (if b then "$4" ++ CRLF ++ "true" ++ CRLF
                        else "$5" ++ CRLF ++ "false" ++ CRLF)%string
           ++ frames post)
        (SendCommands (pre ++ VBool b :: post) w))
  /\ flushed w
       (bytes_of ("*1" ++ CRLF ++ "$4" ++ CRLF ++ "true" ++ CRLF)%string)
       (SendCommands [VBool true] w).
Proof.
  split.
  - intros pre post b Hpre Hpost.
    replace (bytes_of (if b then "$4" ++ CRLF ++ "true" ++ CRLF
                       else "$5" ++ CRLF ++ "false" ++ CRLF)%string)
      with (blob (bytes_of (strconv.FormatBool b)))
      by (destruct b; reflexivity).
    now apply SendCommands_one_flushed.
  - exact (@SendCommands_flushed [VBool true] w Hw eq_refl).
Qed.

(** C8, as amended. The error returned for an unsupported argument is
    built from the value of the first such argument alone: its message
    is [unsupported data type: ] followed by the value in the default
    format [%v].  This holds over any sink and in any state of the
    writer. *)
Theorem unsupported_error_shows_value {S : Type} `{io.Writer S}
    (pre post : list value) (o : other) (w : bufio.Writer S)
    (Hpre : forallb supported pre = true) :
  fst (SendCommands (pre ++ VOther o :: post) w)
  = Some (errorString ("unsupported data type: " ++ fmt.Sprint_v o)%string).
Proof.
  destruct (@accepted_prefix pre post o Hpre) as [_ Hr].
  rewrite SendCommands_result; rewrite Hr; [reflexivity | discriminate].
Qed.

(** C9. Of the integer types only [int] and [int64] are accepted: such an
    argument is written as a blob string and the command is flushed.  An
    integer of any other width, and any unsigned integer, reaches the
    [default] case and the call returns the unsupported-type error. *)
Theorem SendCommands_integer_widths (pre post : list value) (a : value)
    (w : W) (Hw : healthy w) (Hpre : forallb supported pre = true)
    (Hpost : forallb supported post = true)
    (Ha : integer_type (TypeOf a) = true) :
  let r := SendCommands (pre ++ a :: post) w in
  (TypeOf a = Tint \/ TypeOf a = Tint64 ->
   exists v, (a = VInt v \/ a = VInt64 v)
     /\ flushed w
          (array_header (List.length (pre ++ a :: post))
             ++ frames pre ++ blob (bytes_of (strconv.FormatInt v))
             ++ frames post) r)
  /\ (TypeOf a <> Tint -> TypeOf a <> Tint64 ->
      exists o, a = VOther o /\ supported a = false
        /\ fst r = Some (unsupported_error o)).
Proof.
  intros r. subst r. split.
  - intros Ht.
    destruct a as [ | v | v | | | | | o]; simpl in Ha; try discriminate.
    + exists v. split; [auto |]. now apply SendCommands_one_flushed.
    + exists v. split; [auto |]. now apply SendCommands_one_flushed.
    + destruct o, Ht; discriminate.
  - intros Hn1 Hn2.
    destruct a as [ | v | v | | | | | o]; simpl in Ha; try discriminate;
      try (now elim Hn1); try (now elim Hn2).
    exists o. repeat split.
    destruct (@accepted_prefix pre post o Hpre) as [_ Hr].
    rewrite SendCommands_result; rewrite Hr; [reflexivity | discriminate].
Qed.

(** C10, as amended. Over a sink that takes every byte and with no error
    pending, the bytes an encode operation writes and the result it
    returns are decided by the argument sequence: on any two such writers
    the same call returns the same result and appends the same bytes. *)
Theorem encode_deterministic (w1 w2 : W) (H1 : healthy w1)
    (H2 : healthy w2) :
  (forall args : list value,
      fst (SendCommands args w1) = fst (SendCommands args w2)
      /\ exists out,
          stream (snd (SendCommands args w1)) = stream w1 ++ out
          /\ stream (snd (SendCommands args w2)) = stream w2 ++ out)
  /\ (forall args : list string,
         fst (WriteCommand args w1) = fst (WriteCommand args w2)
         /\ exists out,
             stream (snd (WriteCommand args w1)) = stream w1 ++ out
             /\ stream (snd (WriteCommand args w2)) = stream w2 ++ out)
  /\ (forall args : list bytes,
         fst (WriteByteCommand args w1) = fst (WriteByteCommand args w2)
         /\ exists out,
             stream (snd (WriteByteCommand args w1)) = stream w1 ++ out
             /\ stream (snd (WriteByteCommand args w2)) = stream w2 ++ out).
Proof.
  split; [| split]; intros args.
  - destruct (SendCommands_sent args H1) as (_ & _ & Hs1 & Hr1 & _).
    destruct (SendCommands_sent args H2) as (_ & _ & Hs2 & Hr2 & _).
    split; [exact (eq_trans Hr1 (eq_sym Hr2)) |].
    eexists; split; [exact Hs1 | exact Hs2].
  - pose proof (WriteCommand_flushed args H1) as F1.
    pose proof (WriteCommand_flushed args H2) as F2.
    split; [exact (eq_trans (proj1 F1) (eq_sym (proj1 F2))) |].
    eexists; split; [exact (flushed_stream F1) | exact (flushed_stream F2)].
  - pose proof (WriteByteCommand_flushed args H1) as F1.
    pose proof (WriteByteCommand_flushed args H2) as F2.
    split; [exact (eq_trans (proj1 F1) (eq_sym (proj1 F2))) |].
    eexists; split; [exact (flushed_stream F1) | exact (flushed_stream F2)].
Qed.

End Claims.

(** ** Counterexamples to the claims that needed amending *)

(** C3 as stated fails: with a 5000-byte text before the unsupported
    argument the call returns the error, yet the frames written before it
    did not stay in the buffer: 4096 bytes of them have reached the sink. *)
Lemma SendCommands_unsupported_reaches_sink :
  let r := SendCommands large_then_nil fresh in
  fst r = Some (unsupported_error ONil)
  /\ List.length (bufio.wr (snd r)) = 4096%nat
  /\ List.length (bufio.buf (snd r)) = 917%nat
  /\ bufio.wr (snd r) <> bufio.wr fresh.
Proof.
  vm_compute. repeat split. discriminate.
Qed.

(** C8 as stated fails: no reading of the error yields the position and
    the type of the offending argument, since an [int8] in first place and
    a [uint16] in second place give the same error. *)
Lemma unsupported_error_hides_position_and_type :
  ~ exists (position : error -> nat) (observed : error -> gotype),
      forall (pre post : list value) (o : other) (e : error),
        forallb supported pre = true ->
        fst (SendCommands (pre ++ VOther o :: post) fresh) = Some e ->
        position e = List.length pre /\ observed e = type_of_other o.
Proof.
  intros (position & observed & Hid).
  destruct (Hid [] [] (OInt8 5) (errorString "unsupported data type: 5")
              eq_refl eq_refl) as [H0 _].
  destruct (Hid [VString "x"] [] (OUint16 5)
              (errorString "unsupported data type: 5") eq_refl eq_refl)
    as [H1 _].
  simpl in H0, H1. congruence.
Qed.

(** C5 as stated fails: a signed integer of another width has no payload
    at all.  [SendCommands("EXPIRE", "key1", int32(10))] returns the
    unsupported-type error after writing the header and the two frames
    before it; nothing is written for the integer and nothing is flushed. *)
Lemma SendCommands_int32_has_no_payload :
  let r := SendCommands
             [VString "EXPIRE"; VString "key1"; VOther (OInt32 10)] fresh in
  integer_type (TypeOf (VOther (OInt32 10))) = true
  /\ in_range (VOther (OInt32 10)) = true
  /\ fst r = Some (errorString "unsupported data type: 10")
  /\ stream (snd r)
     = bytes_of ("*3" ++ CRLF ++ "$6" ++ CRLF ++ "EXPIRE" ++ CRLF
                 ++ "$4" ++ CRLF ++ "key1" ++ CRLF)%string
  /\ bufio.wr (snd r) = [].
Proof. vm_compute. repeat split. Qed.

(** C10 as stated fails: the result does not depend on the arguments
    alone.  Over a sink with room for 14 bytes, [WriteCommand("PING")]
    returns [nil] and the same call right after it returns the sink's
    error, the sink holding the first command only. *)
Lemma WriteCommand_result_depends_on_sink :
  let w0 := NewWriter {| taken := []; room := 14 |} in
  let r1 := WriteCommand ["PING"] w0 in
  let r2 := WriteCommand ["PING"] (snd r1) in
  fst r1 = None
  /\ fst r2 = Some errClosed
  /\ taken (bufio.wr (snd r1))
     = bytes_of ("*1" ++ CRLF ++ "$4" ++ CRLF ++ "PING" ++ CRLF)%string
  /\ taken (bufio.wr (snd r2)) = taken (bufio.wr (snd r1)).
Proof. vm_compute. repeat split. Qed.

(** ** The float32 case of the type switch *)

(** C4. The code at the inputs [float32(0.1)] and [float32(0.3)]: line 47
    formats the float64 widening with bit size 64, so the payload is the
    17-digit text of the widening ([$19 0.10000000149011612]), which reads
    back to the value but is not the shortest text that does: [0.1] reads
    back, as a float32, to the same value.  The float64 case beside it
    writes [0.1] for the float64 nearest to 0.1. *)
Theorem float32_written_with_float64_digits :
  let v : float32 := 0x1.99999ap-4%float in
  let u : float32 := 0x1.333334p-2%float in
  text (VFloat32 v) = Some "0.10000000149011612"
  /\ strconv.ParseFloat "0.10000000149011612" 64 = Some (float64_of_float32 v)
  /\ strconv.ParseFloat "0.10000000149011612" 32 = Some v
  /\ strconv.ParseFloat "0.1" 32 = Some v
  /\ text (VFloat32 u) = Some "0.30000001192092896"
  /\ strconv.ParseFloat "0.3" 32 = Some u
  /\ text (VFloat64 0x1.999999999999ap-4%float) = Some "0.1"
  /\ strconv.ParseFloat "0.1" 64 = Some 0x1.999999999999ap-4%float
  /\ (let r := SendCommands [VFloat32 v] fresh in
      fst r = None
      /\ bufio.wr (snd r)
         = bytes_of ("*1" ++ CRLF ++ "$19" ++ CRLF
                     ++ "0.10000000149011612" ++ CRLF)%string).
Proof. vm_compute. repeat split. Qed.

(** ** The claims at concrete inputs *)

Lemma healthy_fresh : healthy fresh.
Proof.
  unfold healthy, fresh, NewWriter, bufio.NewWriter, bufio.defaultBufSize.
  simpl. repeat split; lia.
Qed.

Lemma healthy_pending : healthy pending.
Proof. unfold healthy, pending; simpl. repeat split; lia. Qed.

Lemma blob_frames_carry_byte_length_witness :
  healthy pending
  /\ flushed pending
       (array_header (List.length [bytes_of "a"; CRLFByte])
          ++ flat_map blob [bytes_of "a"; CRLFByte])
       (WriteByteCommand [bytes_of "a"; CRLFByte] pending).
Proof.
  split; [exact healthy_pending |].
  exact (proj1 (@blob_frames_carry_byte_length pending healthy_pending)
           [bytes_of "a"; CRLFByte]).
Defined.

Lemma WriteCommand_SET_key1_value1_witness :
  healthy fresh
  /\ flushed fresh
       (bytes_of ("*3" ++ CRLF ++ "$3" ++ CRLF ++ "SET" ++ CRLF
                  ++ "$4" ++ CRLF ++ "key1" ++ CRLF
                  ++ "$6" ++ CRLF ++ "value1" ++ CRLF)%string)
       (WriteCommand ["SET"; "key1"; "value1"] fresh).
Proof.
  split; [exact healthy_fresh |].
  exact (@WriteCommand_SET_key1_value1 fresh healthy_fresh).
Defined.

Lemma WriteCommand_empty_witness :
  healthy pending
  /\ flushed pending (bytes_of ("*0" ++ CRLF)%string) (WriteCommand [] pending).
Proof.
  split; [exact healthy_pending |].
  exact (@WriteCommand_empty pending healthy_pending).
Defined.

Lemma SendCommands_unsupported_aborts_witness :
  healthy fresh
  /\ forallb supported [VString "SET"; VInt 7] = true
  /\ fst (SendCommands
            ([VString "SET"; VInt 7] ++ VOther (OInt32 5) :: [VBool true])
            fresh)
     = Some (unsupported_error (OInt32 5)).
Proof.
  split; [exact healthy_fresh |].
  split; [reflexivity |].
  exact (proj1 (@SendCommands_unsupported_aborts
                  [VString "SET"; VInt 7] [VBool true] (OInt32 5) fresh
                  healthy_fresh eq_refl)).
Defined.

Lemma SendCommands_integer_canonical_witness :
  healthy fresh
  /\ flushed fresh
       (bytes_of ("*3" ++ CRLF ++ "$6" ++ CRLF ++ "EXPIRE" ++ CRLF
                  ++ "$4" ++ CRLF ++ "key1" ++ CRLF
                  ++ "$2" ++ CRLF ++ "10" ++ CRLF)%string)
       (SendCommands [VString "EXPIRE"; VString "key1"; VInt64 10] fresh).
Proof.
  split; [exact healthy_fresh |].
  exact (proj2 (proj2 (@SendCommands_integer_canonical fresh healthy_fresh))).
Defined.

Lemma SendCommands_bool_blob_witness :
  healthy fresh
  /\ flushed fresh
       (bytes_of ("*1" ++ CRLF ++ "$4" ++ CRLF ++ "true" ++ CRLF)%string)
       (SendCommands [VBool true] fresh).
Proof.
  split; [exact healthy_fresh |].
  exact (proj2 (@SendCommands_bool_blob fresh healthy_fresh)).
Defined.

Lemma unsupported_error_shows_value_witness :
  forallb supported [VString "LPUSH"; VString "k"] = true
  /\ fst (SendCommands
            ([VString "LPUSH"; VString "k"]
               ++ VOther (OStrings ["a"; "b"]) :: [])
            fresh)
     = Some (errorString
               ("unsupported data type: "
                  ++ fmt.Sprint_v (OStrings ["a"; "b"]))%string).
Proof.
  split; [reflexivity |].
  exact (@unsupported_error_shows_value bytes bytes_Buffer
           [VString "LPUSH"; VString "k"] [] (OStrings ["a"; "b"]) fresh
           eq_refl).
Defined.

Lemma SendCommands_integer_widths_witness :
  healthy fresh
  /\ forallb supported [VString "INCRBY"; VString "n"] = true
  /\ integer_type (TypeOf (VOther (OUint8 200))) = true
  /\ exists o, VOther (OUint8 200) = VOther o
       /\ supported (VOther (OUint8 200)) = false
       /\ fst (SendCommands
                 ([VString "INCRBY"; VString "n"]
                    ++ VOther (OUint8 200) :: [])
                 fresh)
          = Some (unsupported_error o).
Proof.
  split; [exact healthy_fresh |].
  split; [reflexivity |].
  split; [reflexivity |].
  refine (proj2 (@SendCommands_integer_widths
                   [VString "INCRBY"; VString "n"] [] (VOther (OUint8 200))
                   fresh healthy_fresh eq_refl eq_refl eq_refl) _ _);
    discriminate.
Defined.

Lemma encode_deterministic_witness :
  healthy fresh /\ healthy pending
  /\ fst (SendCommands [VString "GET"; VOther ONil] fresh)
     = fst (SendCommands [VString "GET"; VOther ONil] pending).
Proof.
  split; [exact healthy_fresh |].
  split; [exact healthy_pending |].
  exact (proj1 (proj1 (@encode_deterministic fresh pending healthy_fresh
                         healthy_pending)
                  [VString "GET"; VOther ONil])).
Defined.

(** * Further properties of the writer *)

(** ** Over any sink: pending errors *)

Section AnySink.

Context {S : Type} `{io.Writer S}.

Lemma Flush_pending (e : error) (w : bufio.Writer S) :
  bufio.err w = Some e -> bufio.Flush w = (Some e, w).
Proof. intros He. unfold bufio.Flush. now rewrite He. Qed.

Lemma WriteByte_pending (c : byte) (e : error) (w : bufio.Writer S) :
  bufio.err w = Some e -> bufio.WriteByte c w = (Some e, w).
Proof. intros He. unfold bufio.WriteByte. now rewrite He. Qed.

Lemma Write_pending (p : bytes) (e : error) (w : bufio.Writer S) :
  bufio.err w = Some e -> snd (bufio.Write p w) = w.
Proof.
  intros He. unfold bufio.Write. cbn [bufio.Write_loop]. now rewrite He, He.
Qed.

Lemma WriteString_pending (s : string) (e : error) (w : bufio.Writer S) :
  bufio.err w = Some e -> snd (bufio.WriteString s w) = w.
Proof.
  intros He. unfold bufio.WriteString. cbn [bufio.WriteString_loop Nat.add].
  now rewrite He, He.
Qed.

Lemma seq_run {A B} (c : M A) (k : M B) (w : bufio.Writer S) :
  (c ;; k) w = k (snd (c w)).
Proof. reflexivity. Qed.

Lemma call_run {A} (c : M A) (w : bufio.Writer S) :
  snd (call c w) = snd (c w).
Proof. reflexivity. Qed.

Lemma writeString_pending (str : string) (e : error) (w : bufio.Writer S) :
  bufio.err w = Some e -> snd (writeString str w) = w.
Proof.
  intros He. unfold writeString. rewrite !seq_run, call_run.
  rewrite (@WriteByte_pending _ _ _ He). cbn [snd].
  rewrite (@WriteString_pending _ _ _ He), (@Write_pending _ _ _ He).
  rewrite (@WriteString_pending _ _ _ He). apply (@Write_pending _ _ _ He).
Qed.

Lemma WriteCommand_range_step (arg : string) (rest : list string)
    (w : bufio.Writer S) :
  WriteCommand_range (arg :: rest) w
  = WriteCommand_range rest (snd (writeString arg w)).
Proof.
  cbn [WriteCommand_range]. unfold writeString.
  rewrite !seq_run, call_run. reflexivity.
Qed.

Lemma WriteByteCommand_range_step (arg : bytes) (rest : list bytes)
    (w : bufio.Writer S) :
  WriteByteCommand_range (arg :: rest) w
  = WriteByteCommand_range rest (snd (writeBytes arg w)).
Proof.
  cbn [WriteByteCommand_range]. unfold writeBytes.
  rewrite !seq_run, call_run. reflexivity.
Qed.

Lemma SendCommands_range_step (a : value) (s : string) (rest : list value)
    (w : bufio.Writer S) :
  text a = Some s ->
  SendCommands_range (a :: rest) w
  = SendCommands_range rest (snd (writeString s w)).
Proof.
  intros Ea. rewrite (@SendCommands_range_cons _ _ a s rest w Ea).
  apply seq_run.
Qed.

Lemma WriteCommand_header (args : list string) (w : bufio.Writer S) :
  WriteCommand args w
  = WriteCommand_range args (snd (header (List.length args) w)).
Proof.
  unfold WriteCommand, header. rewrite !seq_run, call_run. reflexivity.
Qed.

Lemma WriteByteCommand_header (args : list bytes) (w : bufio.Writer S) :
  WriteByteCommand args w
  = WriteByteCommand_range args (snd (header (List.length args) w)).
Proof.
  unfold WriteByteCommand, header. rewrite !seq_run, call_run. reflexivity.
Qed.

Lemma SendCommands_header (args : list value) (w : bufio.Writer S) :
  SendCommands args w
  = SendCommands_range args (snd (header (List.length args) w)).
Proof.
  unfold SendCommands, header. rewrite !seq_run, call_run. reflexivity.
Qed.

Lemma writeBytes_pending (arg : bytes) (e : error) (w : bufio.Writer S) :
  bufio.err w = Some e -> snd (writeBytes arg w) = w.
Proof.
  intros He. unfold writeBytes. rewrite !seq_run, call_run.
  rewrite (@WriteByte_pending _ _ _ He). cbn [snd].
  rewrite (@WriteString_pending _ _ _ He), (@Write_pending _ _ _ He).
  rewrite (@Write_pending _ _ _ He). apply (@Write_pending _ _ _ He).
Qed.

Lemma header_pending (n : nat) (e : error) (w : bufio.Writer S) :
  bufio.err w = Some e -> snd (header n w) = w.
Proof.
  intros He. unfold header. rewrite !seq_run, call_run.
  rewrite (@WriteByte_pending _ _ _ He). cbn [snd].
  rewrite (@WriteString_pending _ _ _ He). apply (@Write_pending _ _ _ He).
Qed.

(** X1. Once a write to the sink has failed, the error stays with the
    writer: every later command returns it and changes nothing, neither
    the buffer nor the sink.  [SendCommands] returns the unsupported-type
    error instead when it meets an unsupported argument. *)
Theorem pending_error_is_returned (e : error) (w : bufio.Writer S)
    (He : bufio.err w = Some e) :
  (forall args : list string, WriteCommand args w = (Some e, w))
  /\ (forall args : list bytes, WriteByteCommand args w = (Some e, w))
  /\ (forall args : list value,
         SendCommands args w = (Some (pending_result e args), w)).
Proof.
  split; [| split]; intros args.
  - rewrite WriteCommand_header, (@header_pending _ _ _ He).
    induction args as [| a rest IH]; [exact (@Flush_pending _ _ He) |].
    now rewrite WriteCommand_range_step, (@writeString_pending _ _ _ He).
  - rewrite WriteByteCommand_header, (@header_pending _ _ _ He).
    induction args as [| a rest IH]; [exact (@Flush_pending _ _ He) |].
    now rewrite WriteByteCommand_range_step, (@writeBytes_pending _ _ _ He).
  - rewrite SendCommands_header, (@header_pending _ _ _ He).
    unfold pending_result.
    induction args as [| a rest IH]; [exact (@Flush_pending _ _ He) |].
    destruct (text a) as [s |] eqn:Ea.
    + rewrite (@SendCommands_range_step a s rest w Ea).
      rewrite (@writeString_pending _ _ _ He), IH.
      destruct a; cbn [text rejected] in *; congruence.
    + destruct a; cbn [text] in Ea; try discriminate. reflexivity.
Qed.

Lemma Flush_result (w : bufio.Writer S) :
  fst (bufio.Flush w) = bufio.err (snd (bufio.Flush w))
  /\ (fst (bufio.Flush w) = None -> bufio.buf (snd (bufio.Flush w)) = []).
Proof.
  unfold bufio.Flush. destruct (bufio.err w) as [e |] eqn:He.
  - cbn [fst snd]. split; [now rewrite He | discriminate].
  - destruct (bufio.buf w) as [| b l] eqn:Eb.
    + cbn [fst snd]. split; [now rewrite He | now rewrite Eb].
    + destruct (io.Write (bufio.wr w) (b :: l)) as [x [| n e]];
        split; try reflexivity; discriminate.
Qed.

(** X2. Although the code ignores the result of every single write, no
    failure is lost: over any sink and from any state, [WriteCommand] and
    [WriteByteCommand] return exactly the error pending in the writer after
    the final [Flush], and so does [SendCommands] when every argument is
    supported.  A [nil] result therefore means that no error is pending
    and that nothing is left in the buffer. *)
Theorem result_is_pending_error (w : bufio.Writer S) :
  (forall args : list string,
      let r := WriteCommand args w in
      fst r = bufio.err (snd r)
      /\ (fst r = None -> bufio.buf (snd r) = []))
  /\ (forall args : list bytes,
         let r := WriteByteCommand args w in
         fst r = bufio.err (snd r)
         /\ (fst r = None -> bufio.buf (snd r) = []))
  /\ (forall args : list value,
         rejected args = None ->
         let r := SendCommands args w in
         fst r = bufio.err (snd r)
         /\ (fst r = None -> bufio.buf (snd r) = [])).
Proof.
  split; [| split]; intros args.
  - rewrite WriteCommand_header.
    generalize (snd (header (List.length args) w)).
    induction args as [| a rest IH]; intros w1;
      [apply Flush_result | rewrite WriteCommand_range_step; apply IH].
  - rewrite WriteByteCommand_header.
    generalize (snd (header (List.length args) w)).
    induction args as [| a rest IH]; intros w1;
      [apply Flush_result | rewrite WriteByteCommand_range_step; apply IH].
  - intros Hrej. rewrite SendCommands_header.
    generalize (snd (header (List.length args) w)).
    induction args as [| a rest IH]; intros w1; [apply Flush_result |].
    destruct (text a) as [s |] eqn:Ea.
    + rewrite (@SendCommands_range_step a s rest w1 Ea). apply IH.
      destruct a; cbn [text rejected] in *; congruence.
    + destruct a; cbn [text rejected] in *; discriminate.
Qed.

(** X3. The type switch only chooses a text: with every argument
    supported, [SendCommands] does exactly what [WriteCommand] does on the
    texts of its arguments, over any sink and from any state. *)
Theorem SendCommands_is_WriteCommand_on_texts (args : list value)
    (w : bufio.Writer S) (Hall : forallb supported args = true) :
  SendCommands args w = WriteCommand (texts args) w.
Proof.
  assert (Hlen : List.length (texts args) = List.length args).
  { clear w. induction args as [| a rest IH]; [reflexivity |].
    cbn [forallb] in Hall. apply andb_prop in Hall as [Ha Hr].
    unfold texts in *. cbn [flat_map]. unfold supported in Ha.
    destruct (text a); [| discriminate].
    cbn [app List.length]. now rewrite IH. }
  rewrite SendCommands_header, WriteCommand_header, Hlen.
  generalize (snd (header (List.length args) w)). clear Hlen.
  induction args as [| a rest IH]; intros w1; [reflexivity |].
  cbn [forallb] in Hall. apply andb_prop in Hall as [Ha Hr].
  unfold supported in Ha. destruct (text a) as [s |] eqn:Ea; [| discriminate].
  rewrite (@SendCommands_range_step a s rest w1 Ea).
  unfold texts. cbn [flat_map]. rewrite Ea. cbn [app].
  rewrite WriteCommand_range_step. now apply IH.
Qed.

End AnySink.

(** ** Reading the frames back *)

Section Framing.

Lemma all_digits_bytes (s : string) :
  forallb is_digit_byte (bytes_of s) = strconv.all_digits s.
Proof.
  unfold bytes_of, list_byte_of_string, is_digit_byte.
  induction s as [| c s IH]; [reflexivity |].
  cbn [list_ascii_of_string map forallb strconv.all_digits].
  now rewrite ascii_of_byte_of_ascii, IH.
Qed.

Lemma Itoa_all_digits (n : nat) :
  forallb is_digit_byte (bytes_of (strconv.Itoa (Z.of_nat n))) = true.
Proof.
  rewrite all_digits_bytes. unfold strconv.Itoa, strconv.FormatInt.
  destruct (Z.ltb_spec (Z.of_nat n) 0) as [Hneg | _]; [lia |].
  destruct (Z.eq_dec (Z.of_nat n) 0) as [-> | Hne]; [reflexivity |].
  pose proof (@FormatUint_canonical (Z.of_nat n) ltac:(lia)) as Hc.
  destruct (strconv.FormatUint (Z.of_nat n)) as [| c s];
    cbn [strconv.canonical_positive strconv.all_digits] in *;
    [discriminate |].
  apply andb_prop in Hc as [Hc Hall]. apply andb_prop in Hc as [Hd _].
  now rewrite Hd, Hall.
Qed.

Lemma Itoa_injective (n1 n2 : nat) :
  bytes_of (strconv.Itoa (Z.of_nat n1)) = bytes_of (strconv.Itoa (Z.of_nat n2))
  -> n1 = n2.
Proof.
  intros E. apply (f_equal string_of) in E. unfold string_of, bytes_of in E.
  rewrite !string_of_list_byte_of_string in E.
  apply (f_equal strconv.ParseInt) in E. unfold strconv.Itoa in E.
  destruct (FormatInt_canonical (Z.of_nat n1)) as [_ E1].
  destruct (FormatInt_canonical (Z.of_nat n2)) as [_ E2].
  rewrite E1, E2 in E. injection E as E. lia.
Qed.

(** A run of digits ends at the first byte that is not one. *)
Lemma digits_then_stop (stop : byte) (d1 d2 r1 r2 : bytes) :
  is_digit_byte stop = false ->
  forallb is_digit_byte d1 = true -> forallb is_digit_byte d2 = true ->
  d1 ++ stop :: r1 = d2 ++ stop :: r2 -> d1 = d2 /\ r1 = r2.
Proof.
  intros Hstop. revert d2.
  induction d1 as [| x d1 IH]; intros [| y d2] H1 H2 E;
    cbn [app forallb] in *.
  - injection E as E. auto.
  - injection E as Ex E. subst y.
    apply andb_prop in H2 as [Hy _]. congruence.
  - injection E as Ex E. subst x.
    apply andb_prop in H1 as [Hx _]. congruence.
  - injection E as Ex E. subst y.
    apply andb_prop in H1 as [_ H1]. apply andb_prop in H2 as [_ H2].
    destruct (IH d2 H1 H2 E) as [-> ->]. auto.
Qed.

Lemma app_same_length (p1 p2 x1 x2 : bytes) :
  List.length p1 = List.length p2 -> p1 ++ x1 = p2 ++ x2 ->
  p1 = p2 /\ x1 = x2.
Proof.
  revert p2. induction p1 as [| a p1 IH]; intros [| b p2] Hl E;
    cbn [app List.length] in *; try discriminate; [auto |].
  injection E as -> E. injection Hl as Hl.
  destruct (IH p2 Hl E) as [-> ->]. auto.
Qed.

(** A frame can be cut off what follows it in one way only. *)
Lemma blob_then_rest (p1 p2 r1 r2 : bytes) :
  blob p1 ++ r1 = blob p2 ++ r2 -> p1 = p2 /\ r1 = r2.
Proof.
  unfold blob, CRLFByte, len_bytes. cbn [app]. intros E. injection E as E.
  rewrite <- !app_assoc in E. cbn [app] in E.
  apply digits_then_stop in E as [Ed E];
    [| reflexivity | apply Itoa_all_digits | apply Itoa_all_digits].
  apply Itoa_injective in Ed. injection E as E.
  rewrite <- !app_assoc in E.
  apply (app_same_length _ _ _ _ Ed) in E as [-> E].
  cbn [app] in E. injection E as E. auto.
Qed.

Lemma frames_then_rest (l1 : list bytes) :
  forall (l2 : list bytes) (r1 r2 : bytes),
    List.length l1 = List.length l2 ->
    flat_map blob l1 ++ r1 = flat_map blob l2 ++ r2 -> l1 = l2 /\ r1 = r2.
Proof.
  induction l1 as [| p1 l1 IH]; intros [| p2 l2] r1 r2 Hl E;
    cbn [List.length flat_map] in *; try discriminate; [auto |].
  rewrite <- !app_assoc in E. apply blob_then_rest in E as [-> E].
  injection Hl as Hl. destruct (IH l2 r1 r2 Hl E) as [-> ->]. auto.
Qed.

(** A command can be cut off what follows it in one way only, and it
    determines its arguments. *)
Lemma command_then_rest (l1 l2 : list bytes) (r1 r2 : bytes) :
  command_bytes l1 ++ r1 = command_bytes l2 ++ r2 -> l1 = l2 /\ r1 = r2.
Proof.
  unfold command_bytes, array_header, CRLFByte. cbn [app].
  intros E. injection E as E.
  rewrite <- !app_assoc in E. cbn [app] in E.
  apply digits_then_stop in E as [Ed E];
    [| reflexivity | apply Itoa_all_digits | apply Itoa_all_digits].
  apply Itoa_injective in Ed. injection E as E.
  now apply frames_then_rest.
Qed.

End Framing.

(** ** Over an in-memory sink: frames, sequences of commands *)

Section Sequences.

#[local] Abbreviation W := (bufio.Writer bytes).

(** X4. [writeString] appends exactly one blob-string frame to the stream:
    the marker, the decimal byte length of the text, the terminator, the
    bytes of the text and the terminator.  It does not flush: when the
    frame fits the free space of the buffer the sink is not touched. *)
Theorem writeString_appends_blob (str : string) (w : W) (Hw : healthy w) :
  let w' := snd (writeString str w) in
  healthy w'
  /\ bufio.size w' = bufio.size w
  /\ stream w'
     = stream w
         ++ TypeBlobString :: bytes_of (strconv.Itoa (len str))
         ++ CRLFByte ++ bytes_of str ++ CRLFByte
  /\ (fits w (blob (bytes_of str)) ->
      bufio.wr w' = bufio.wr w
      /\ bufio.buf w' = bufio.buf w ++ blob (bytes_of str)).
Proof.
  intros w'. pose proof (writes_writeString str) as Hws.
  unfold writes in Hws. specialize (Hws w Hw).
  destruct Hws as (Hh & Hs & Hst & Hq).
  fold w' in Hh, Hs, Hst, Hq.
  repeat split; try apply Hh; try assumption.
  - rewrite Hst. unfold blob. now rewrite len_bytes_of.
  - now apply Hq.
  - apply fits_buf; [assumption | now apply Hq].
Qed.

Lemma flushed_unique (w : W) (out : bytes) (r1 r2 : option error * W) :
  flushed w out r1 -> flushed w out r2 -> r1 = r2.
Proof.
  destruct r1 as [e1 [err1 buf1 size1 wr1]], r2 as [e2 [err2 buf2 size2 wr2]].
  unfold flushed, healthy. cbn [fst snd bufio.err bufio.buf bufio.size bufio.wr].
  intros (-> & (-> & _) & -> & -> & ->) (-> & (-> & _) & -> & -> & ->).
  reflexivity.
Qed.

Lemma flat_map_blob_map (args : list string) :
  flat_map blob (map bytes_of args)
  = flat_map (fun a => blob (bytes_of a)) args.
Proof.
  induction args as [| a rest IH]; cbn [map flat_map]; [| rewrite IH];
    reflexivity.
Qed.

Lemma frames_VBytes (args : list bytes) :
  frames (map VBytes args) = flat_map blob args
  /\ forallb supported (map VBytes args) = true.
Proof.
  induction args as [| a rest [IH1 IH2]]; [split; reflexivity |].
  unfold frames in *. cbn [map flat_map forallb]. rewrite IH1, IH2.
  split; [| reflexivity].
  unfold frame, text, string_of, bytes_of.
  now rewrite list_byte_of_string_of_list_byte.
Qed.

(** X5. On a sink that takes every byte the three operations agree: the
    byte-slice command on the bytes of the strings ends in the same
    result and the same writer as the string command, and [SendCommands]
    on byte-slice values in the same as the byte-slice command. *)
Theorem operations_agree (w : W) (Hw : healthy w) :
  (forall args : list string,
      WriteByteCommand (map bytes_of args) w = WriteCommand args w)
  /\ (forall args : list bytes,
         SendCommands (map VBytes args) w = WriteByteCommand args w).
Proof.
  split; intros args.
  - pose proof (WriteByteCommand_flushed (map bytes_of args) Hw) as F1.
    rewrite length_map, flat_map_blob_map in F1.
    exact (flushed_unique F1 (WriteCommand_flushed args Hw)).
  - destruct (frames_VBytes args) as [Hf Hs].
    pose proof (SendCommands_flushed (map VBytes args) Hw Hs) as F1.
    rewrite length_map, Hf in F1.
    exact (flushed_unique F1 (WriteByteCommand_flushed args Hw)).
Qed.

Lemma commands_in_sequence_aux (first second : list bytes) (w : W) :
  healthy w ->
  bufio.wr (snd (WriteByteCommand second (snd (WriteByteCommand first w))))
  = stream w ++ command_bytes first ++ command_bytes second.
Proof.
  intros Hw.
  destruct (WriteByteCommand_flushed first Hw) as (_ & Hh1 & _ & Hb1 & Hw1).
  destruct (WriteByteCommand_flushed second Hh1) as (_ & _ & _ & _ & Hw2).
  unfold Writer in *. rewrite Hw2. unfold stream at 1. rewrite Hb1, Hw1, app_nil_r.
  unfold command_bytes. now rewrite <- !app_assoc.
Qed.

(** X6. Commands compose: after two calls in a row the sink holds the
    earlier stream, the bytes of the first command and the bytes of the
    second, and nothing is left in the buffer. *)
Theorem commands_in_sequence (first second : list bytes) (w : W)
    (Hw : healthy w) :
  let r1 := WriteByteCommand first w in
  let r2 := WriteByteCommand second (snd r1) in
  fst r1 = None /\ fst r2 = None
  /\ bufio.buf (snd r2) = []
  /\ bufio.wr (snd r2)
     = stream w ++ command_bytes first ++ command_bytes second.
Proof.
  intros r1 r2. subst r2 r1.
  destruct (WriteByteCommand_flushed first Hw) as (Hr1 & Hh1 & _ & _ & _).
  destruct (WriteByteCommand_flushed second Hh1) as (Hr2 & _ & _ & Hb2 & _).
  unfold Writer in *. repeat split; try assumption.
  now apply commands_in_sequence_aux.
Qed.

(** X7. An aborted command is not discarded: after [SendCommands] has
    returned the unsupported-type error, the header and the frames it
    had written are still in the stream, and the next command delivers
    them to the sink in front of its own bytes. *)
Theorem aborted_prefix_precedes_next_command (pre post : list value)
    (o : other) (next : list bytes) (w : W) (Hw : healthy w)
    (Hpre : forallb supported pre = true) :
  let r1 := SendCommands (pre ++ VOther o :: post) w in
  let r2 := WriteByteCommand next (snd r1) in
  fst r1 = Some (unsupported_error o)
  /\ fst r2 = None
  /\ bufio.wr (snd r2)
     = stream w
         ++ (array_header (List.length (pre ++ VOther o :: post))
               ++ frames pre)
         ++ command_bytes next.
Proof.
  intros r1 r2. subst r2 r1.
  destruct (@accepted_prefix pre post o Hpre) as [Ha Hr].
  pose proof (SendCommands_sent (pre ++ VOther o :: post) Hw) as Hsent.
  rewrite Ha, Hr in Hsent.
  destruct Hsent as (Hh1 & _ & Hst1 & Hres & _).
  destruct (WriteByteCommand_flushed next Hh1) as (Hr2 & _ & _ & _ & Hw2).
  unfold Writer in *. repeat split; try assumption.
  rewrite Hw2, Hst1. unfold command_bytes. now rewrite <- !app_assoc.
Qed.

(** X8. The framing is unambiguous whatever the payloads contain: if two
    pairs of commands leave the same bytes in the sink, the first commands
    have the same arguments and so have the second ones.  A payload can
    therefore never pass for a command boundary or for another argument. *)
Theorem commands_cannot_be_confused (a1 a2 b1 b2 : list bytes) (w : W)
    (Hw : healthy w) :
  bufio.wr (snd (WriteByteCommand a2 (snd (WriteByteCommand a1 w))))
  = bufio.wr (snd (WriteByteCommand b2 (snd (WriteByteCommand b1 w)))) ->
  a1 = b1 /\ a2 = b2.
Proof.
  pose proof (@commands_in_sequence_aux a1 a2 w Hw) as Ea.
  pose proof (@commands_in_sequence_aux b1 b2 w Hw) as Eb.
  unfold Writer in *.
  intros E. rewrite Ea, Eb in E. apply app_inv_head in E.
  apply command_then_rest in E as [-> E].
  rewrite <- (app_nil_r (command_bytes a2)) in E.
  rewrite <- (app_nil_r (command_bytes b2)) in E.
  apply command_then_rest in E as [-> _]. auto.
Qed.

End Sequences.

(** ** Over a sink that takes no more bytes *)

Section ClosedSink.

#[local] Abbreviation WL := (bufio.Writer limited).

Lemma Write_full (s : limited) (p : bytes) :
  room s = 0%nat -> p <> [] ->
  exists s', io.Write s p = (s', io.failed 0 errClosed)
             /\ room s' = 0%nat /\ taken s' = taken s.
Proof.
  intros Hr Hp. cbn [io.Write limited_Writer]. rewrite Hr.
  destruct p as [| b p]; [contradiction |].
  cbn [List.length Nat.leb firstn]. eexists. split; [reflexivity |].
  cbn [room taken]. now rewrite app_nil_r.
Qed.

Lemma Flush_closed (t0 : bytes) (w : WL) :
  closed t0 w ->
  fst (bufio.Flush w) = Some errClosed /\ closed t0 (snd (bufio.Flush w)).
Proof.
  intros [(Hs & Hr & Ht & He) Hb]. unfold bufio.Flush.
  destruct (bufio.err w) as [e |] eqn:Ee.
  - destruct He as [He | He]; [discriminate |]. injection He as ->.
    cbn [fst snd]. split; [reflexivity |].
    unfold closed, shut. rewrite Ee. repeat split; auto; try discriminate.
  - specialize (Hb eq_refl).
    destruct (bufio.buf w) as [| b l] eqn:Eb; [contradiction |].
    destruct (@Write_full (bufio.wr w) (b :: l) Hr ltac:(discriminate))
      as (s' & -> & Hr' & Ht').
    cbn [fst snd]. split; [reflexivity |].
    unfold closed, shut.
    cbn [bufio.err bufio.buf bufio.size bufio.wr skipn].
    repeat split; auto; try congruence; try discriminate.
Qed.

Lemma WriteByte_shut (t0 : bytes) (c : byte) (w : WL) :
  shut t0 w -> closed t0 (snd (bufio.WriteByte c w)).
Proof.
  intros (Hs & Hr & Ht & He). unfold bufio.WriteByte.
  destruct (bufio.err w) as [e |] eqn:Ee.
  - cbn [snd]. unfold closed, shut. rewrite Ee.
    repeat split; auto; try discriminate.
  - destruct (Nat.leb_spec (bufio.Available w) 0) as [Hav | Hav].
    + assert (Hne : bufio.buf w <> []).
      { unfold bufio.Available in Hav. intros E. rewrite E in Hav.
        cbn [List.length] in Hav. lia. }
      assert (Hc : closed t0 w).
      { unfold closed, shut. rewrite Ee. repeat split; auto. }
      destruct (Flush_closed Hc) as [Hres Hc'].
      destruct (bufio.Flush w) as [r w']. cbn [fst snd] in *. subst r.
      exact Hc'.
    + cbn [snd]. unfold closed, shut.
      cbn [bufio.err bufio.buf bufio.size bufio.wr]. rewrite ?Ee.
      repeat split; auto. intros _ E. now apply app_eq_nil in E as [_ E].
Qed.

Lemma fill_closed (t0 : bytes) (p : bytes) (w : WL) :
  closed t0 w -> closed t0 (snd (bufio.fill p w)).
Proof.
  intros [(Hs & Hr & Ht & He) Hb]. unfold bufio.fill, closed, shut.
  cbn [snd bufio.err bufio.buf bufio.size bufio.wr].
  repeat split; auto. intros E1 E2. apply app_eq_nil in E2 as [E2 _].
  now apply Hb.
Qed.

Lemma Write_loop_closed (t0 : bytes) (fuel : nat) :
  forall (p : bytes) (nn : nat) (w : WL),
    closed t0 w -> closed t0 (snd (bufio.Write_loop fuel p nn w)).
Proof.
  induction fuel as [| fuel IH]; intros p nn w Hc; [exact Hc |].
  cbn [bufio.Write_loop].
  destruct (bufio.err w) as [e |] eqn:Ee; [exact Hc |].
  destruct (List.length p <=? bufio.Available w)%nat eqn:Hfit; [exact Hc |].
  pose proof Hc as [(Hs & Hr & Ht & He) Hb].
  destruct (bufio.Buffered w =? 0)%nat eqn:Hbuf.
  - exfalso. apply (Hb Ee). apply Nat.eqb_eq in Hbuf.
    now apply length_zero_iff_nil.
  - pose proof (fill_closed p Hc) as Hc1.
    destruct (bufio.fill p w) as [n w1]. cbn [snd] in Hc1.
    apply IH. exact (proj2 (Flush_closed Hc1)).
Qed.

Lemma Write_closed (t0 : bytes) (p : bytes) (w : WL) :
  closed t0 w -> closed t0 (snd (bufio.Write p w)).
Proof.
  intros Hc. unfold bufio.Write.
  pose proof (Write_loop_closed 3 p 0 Hc) as Hl.
  destruct (bufio.Write_loop 3 p 0 w) as [[p' nn] w']. cbn [snd] in Hl.
  destruct (bufio.err w'); [exact Hl |].
  pose proof (fill_closed p' Hl) as Hf.
  destruct (bufio.fill p' w'). exact Hf.
Qed.

Lemma WriteString_loop_closed (t0 : bytes) (fuel : nat) :
  forall (p : bytes) (nn : nat) (w : WL),
    closed t0 w -> closed t0 (snd (bufio.WriteString_loop fuel p nn w)).
Proof.
  induction fuel as [| fuel IH]; intros p nn w Hc; [exact Hc |].
  cbn [bufio.WriteString_loop].
  destruct (bufio.err w) as [e |] eqn:Ee; [exact Hc |].
  destruct (List.length p <=? bufio.Available w)%nat eqn:Hfit; [exact Hc |].
  assert (Hfw : bufio.forward w = None).
  { unfold bufio.forward. cbn [io.WriteString limited_Writer].
    now destruct (bufio.Buffered w =? 0)%nat. }
  rewrite Hfw.
  pose proof (fill_closed p Hc) as Hc1.
  destruct (bufio.fill p w) as [n w1]. cbn [snd] in Hc1.
  apply IH. exact (proj2 (Flush_closed Hc1)).
Qed.

Lemma WriteString_closed (t0 : bytes) (s : string) (w : WL) :
  closed t0 w -> closed t0 (snd (bufio.WriteString s w)).
Proof.
  intros Hc. unfold bufio.WriteString.
  pose proof (WriteString_loop_closed
                (2 + List.length (bytes_of s)) (bytes_of s) 0 Hc) as Hl.
  destruct (bufio.WriteString_loop _ (bytes_of s) 0 w) as [[p' nn] w'].
  cbn [snd] in Hl.
  destruct (bufio.err w'); [exact Hl |].
  pose proof (fill_closed p' Hl) as Hf.
  destruct (bufio.fill p' w'). exact Hf.
Qed.

Lemma closed_shut (t0 : bytes) (w : WL) : closed t0 w -> shut t0 w.
Proof. now intros [Hs _]. Qed.

Lemma writeString_closed (t0 : bytes) (str : string) (w : WL) :
  closed t0 w -> closed t0 (snd (writeString str w)).
Proof.
  intros Hc. unfold writeString. rewrite !seq_run, call_run.
  apply Write_closed, WriteString_closed, Write_closed, WriteString_closed.
  now apply WriteByte_shut, closed_shut.
Qed.

Lemma writeBytes_closed (t0 : bytes) (arg : bytes) (w : WL) :
  closed t0 w -> closed t0 (snd (writeBytes arg w)).
Proof.
  intros Hc. unfold writeBytes. rewrite !seq_run, call_run.
  apply Write_closed, Write_closed, Write_closed, WriteString_closed.
  now apply WriteByte_shut, closed_shut.
Qed.

Lemma header_shut (t0 : bytes) (n : nat) (w : WL) :
  shut t0 w -> closed t0 (snd (header n w)).
Proof.
  intros Hs. unfold header. rewrite !seq_run, call_run.
  apply Write_closed, WriteString_closed. now apply WriteByte_shut.
Qed.

Lemma Flush_closed_sink (t0 : bytes) (w : WL) :
  closed t0 w ->
  fst (bufio.Flush w) = Some errClosed
  /\ taken (bufio.wr (snd (bufio.Flush w))) = t0.
Proof.
  intros Hc. destruct (Flush_closed Hc) as [Hr [(_ & _ & Ht & _) _]]. auto.
Qed.

(** X9. Over a sink that takes no more bytes every command fails with
    the sink's error, whatever its arguments, and the sink is left as it
    was.  [SendCommands] returns the unsupported-type error instead when
    it meets an unsupported argument. *)
Theorem full_sink_fails_every_command (t0 : bytes) (w : WL)
    (Hw : shut t0 w) :
  (forall args : list string,
      fst (WriteCommand args w) = Some errClosed
      /\ taken (bufio.wr (snd (WriteCommand args w))) = t0)
  /\ (forall args : list bytes,
         fst (WriteByteCommand args w) = Some errClosed
         /\ taken (bufio.wr (snd (WriteByteCommand args w))) = t0)
  /\ (forall args : list value,
         fst (SendCommands args w) = Some (pending_result errClosed args)
         /\ taken (bufio.wr (snd (SendCommands args w))) = t0).
Proof.
  split; [| split]; intros args.
  - rewrite WriteCommand_header.
    pose proof (header_shut (List.length args) Hw) as Hc. revert Hc.
    generalize (snd (header (List.length args) w)).
    induction args as [| a rest IH]; intros w1 Hc.
    + now apply Flush_closed_sink.
    + rewrite WriteCommand_range_step. now apply IH, writeString_closed.
  - rewrite WriteByteCommand_header.
    pose proof (header_shut (List.length args) Hw) as Hc. revert Hc.
    generalize (snd (header (List.length args) w)).
    induction args as [| a rest IH]; intros w1 Hc.
    + now apply Flush_closed_sink.
    + rewrite WriteByteCommand_range_step. now apply IH, writeBytes_closed.
  - rewrite SendCommands_header. unfold pending_result.
    pose proof (header_shut (List.length args) Hw) as Hc. revert Hc.
    generalize (snd (header (List.length args) w)).
    induction args as [| a rest IH]; intros w1 Hc.
    + now apply Flush_closed_sink.
    + destruct (text a) as [s |] eqn:Ea.
      * rewrite (@SendCommands_range_step _ _ a s rest w1 Ea).
        replace (rejected (a :: rest)) with (rejected rest)
          by (destruct a; cbn [text rejected] in *; congruence).
        now apply IH, writeString_closed.
      * destruct a; cbn [text] in Ea; try discriminate.
        cbn [SendCommands_range rejected]. unfold ret. cbn [fst snd].
        split; [reflexivity |]. now destruct Hc as [(_ & _ & Ht & _) _].
Qed.

End ClosedSink.

(** ** What an aborted call never looks at, and a new writer *)

Section Remaining.

(** X10. [SendCommands] stops at the first unsupported argument: what
    follows it is never examined (a second unsupported argument is never
    reported); only the number of arguments, written in the header
    beforehand, depends on it.  Over any sink and from any state, two
    calls that differ only after the first unsupported argument, with as
    many arguments, end in the same result and the same writer. *)
Theorem arguments_after_unsupported_ignored {S : Type} `{io.Writer S}
    (pre post1 post2 : list value) (o : other) (w : bufio.Writer S)
    (Hpre : forallb supported pre = true)
    (Hlen : List.length post1 = List.length post2) :
  SendCommands (pre ++ VOther o :: post1) w
  = SendCommands (pre ++ VOther o :: post2) w.
Proof.
  rewrite !SendCommands_header.
  replace (List.length (pre ++ VOther o :: post2))
    with (List.length (pre ++ VOther o :: post1))
    by (rewrite !length_app; cbn [List.length]; now rewrite Hlen).
  generalize (snd (header (List.length (pre ++ VOther o :: post1)) w)).
  induction pre as [| a rest IH]; intros w1; [reflexivity |].
  cbn [forallb] in Hpre. apply andb_prop in Hpre as [Ha Hr].
  unfold supported in Ha. destruct (text a) as [s |] eqn:Ea; [| discriminate].
  cbn [app].
  rewrite (@SendCommands_range_step _ _ a s (rest ++ VOther o :: post1) w1 Ea).
  rewrite (@SendCommands_range_step _ _ a s (rest ++ VOther o :: post2) w1 Ea).
  now apply IH.
Qed.

(** X11. A writer made by [NewWriter] is ready for use: its first command
    returns [nil], leaves nothing in the 4096-byte buffer, and the sink
    holds what it held before followed by the bytes of the command. *)
Theorem NewWriter_first_command (sink : bytes) (args : list bytes) :
  let r := WriteByteCommand args (NewWriter sink) in
  fst r = None
  /\ bufio.err (snd r) = None
  /\ bufio.buf (snd r) = []
  /\ bufio.size (snd r) = 4096%nat
  /\ bufio.wr (snd r) = sink ++ command_bytes args.
Proof.
  intros r. subst r.
  destruct (WriteByteCommand_flushed args (healthy_NewWriter sink))
    as (Hr & (He & _) & Hs & Hb & Hw).
  unfold Writer in *. repeat split; try assumption.
  rewrite Hw. unfold stream, NewWriter, bufio.NewWriter.
  cbn [bufio.wr bufio.buf]. now rewrite app_nil_r.
Qed.

End Remaining.

(** ** The further properties at concrete inputs *)

Lemma pending_error_is_returned_witness :
  bufio.err {| bufio.err := Some errClosed; bufio.buf := bytes_of "*1";
               bufio.size := 16; bufio.wr := bytes_of "PING" |}
  = Some errClosed
  /\ WriteCommand ["GET"; "k"]
       {| bufio.err := Some errClosed; bufio.buf := bytes_of "*1";
          bufio.size := 16; bufio.wr := bytes_of "PING" |}
     = (Some errClosed,
        {| bufio.err := Some errClosed; bufio.buf := bytes_of "*1";
           bufio.size := 16; bufio.wr := bytes_of "PING" |}).
Proof.
  split; [reflexivity |].
  exact (proj1 (@pending_error_is_returned bytes bytes_Buffer errClosed
                  {| bufio.err := Some errClosed; bufio.buf := bytes_of "*1";
                     bufio.size := 16; bufio.wr := bytes_of "PING" |}
                  eq_refl)
           ["GET"; "k"]).
Defined.

Lemma SendCommands_is_WriteCommand_on_texts_witness :
  forallb supported [VString "EXPIRE"; VString "k"; VInt64 10] = true
  /\ SendCommands [VString "EXPIRE"; VString "k"; VInt64 10] pending
     = WriteCommand (texts [VString "EXPIRE"; VString "k"; VInt64 10]) pending.
Proof.
  split; [reflexivity |].
  exact (@SendCommands_is_WriteCommand_on_texts bytes bytes_Buffer
           [VString "EXPIRE"; VString "k"; VInt64 10] pending eq_refl).
Defined.

Lemma writeString_appends_blob_witness :
  healthy pending
  /\ healthy (snd (writeString "value1" pending)).
Proof.
  split; [exact healthy_pending |].
  exact (proj1 (@writeString_appends_blob "value1" pending healthy_pending)).
Defined.

Lemma operations_agree_witness :
  healthy pending
  /\ WriteByteCommand (map bytes_of ["SET"; "k"; "v"]) pending
     = WriteCommand ["SET"; "k"; "v"] pending.
Proof.
  split; [exact healthy_pending |].
  exact (proj1 (@operations_agree pending healthy_pending) ["SET"; "k"; "v"]).
Defined.

Lemma commands_in_sequence_witness :
  healthy fresh
  /\ fst (WriteByteCommand [bytes_of "PING"] fresh) = None.
Proof.
  split; [exact healthy_fresh |].
  exact (proj1 (@commands_in_sequence [bytes_of "PING"] [bytes_of "QUIT"]
                  fresh healthy_fresh)).
Defined.

Lemma aborted_prefix_precedes_next_command_witness :
  healthy fresh
  /\ forallb supported [VString "SET"; VString "k"] = true
  /\ fst (SendCommands
            ([VString "SET"; VString "k"] ++ VOther ONil :: []) fresh)
     = Some (unsupported_error ONil).
Proof.
  split; [exact healthy_fresh |].
  split; [reflexivity |].
  exact (proj1 (@aborted_prefix_precedes_next_command
                  [VString "SET"; VString "k"] [] ONil [bytes_of "PING"]
                  fresh healthy_fresh eq_refl)).
Defined.

Lemma commands_cannot_be_confused_witness :
  healthy fresh
  /\ (bufio.wr (snd (WriteByteCommand [CRLFByte]
                       (snd (WriteByteCommand [bytes_of "a"] fresh))))
      = bufio.wr (snd (WriteByteCommand [CRLFByte]
                         (snd (WriteByteCommand [bytes_of "a"] fresh)))) ->
      [bytes_of "a"] = [bytes_of "a"] /\ [CRLFByte] = [CRLFByte]).
Proof.
  split; [exact healthy_fresh |].
  exact (@commands_cannot_be_confused [bytes_of "a"] [CRLFByte]
           [bytes_of "a"] [CRLFByte] fresh healthy_fresh).
Defined.

Lemma full_sink_fails_every_command_witness :
  shut (bytes_of "PING") (NewWriter {| taken := bytes_of "PING"; room := 0 |})
  /\ fst (WriteCommand ["GET"; "k"]
            (NewWriter {| taken := bytes_of "PING"; room := 0 |}))
     = Some errClosed.
Proof.
  assert (Hs : shut (bytes_of "PING")
                 (NewWriter {| taken := bytes_of "PING"; room := 0 |})).
  { unfold shut, NewWriter, bufio.NewWriter, bufio.defaultBufSize.
    cbn [bufio.err bufio.size bufio.wr room taken].
    repeat split; auto. lia. }
  split; [exact Hs |].
  exact (proj1 (proj1 (@full_sink_fails_every_command (bytes_of "PING")
                         (NewWriter {| taken := bytes_of "PING"; room := 0 |})
                         Hs)
                  ["GET"; "k"])).
Defined.

Lemma arguments_after_unsupported_ignored_witness :
  forallb supported [VString "SET"] = true
  /\ List.length [VBool true] = List.length [VOther (OInt8 1)]
  /\ SendCommands ([VString "SET"] ++ VOther ONil :: [VBool true]) fresh
     = SendCommands ([VString "SET"] ++ VOther ONil :: [VOther (OInt8 1)])
         fresh.
Proof.
  split; [reflexivity |].
  split; [reflexivity |].
  exact (@arguments_after_unsupported_ignored bytes bytes_Buffer
           [VString "SET"] [VBool true] [VOther (OInt8 1)] ONil fresh
           eq_refl eq_refl).
Defined.
